(** * Automated notes generator: a shallow embedding of the text pipeline

    The development follows the Python modules of the repository:
    [deduplicator.py], [sentence_ranker.py], [summarizer.py],
    [intelligent_extractor.py], [keyword_extractor.py], [qa_generator.py]
    and [advanced_cleaner.py].

    Texts are lists of characters.  The embedding covers ASCII text: on
    code points below 128 the character classes and case mappings below
    coincide with the ones Python's [str] methods and the [re] module use
    for [str] patterns. *)

From Stdlib Require Import ZArith QArith Qround Ascii String Lia.
From stdpp Require Import base list gmap sorting.

Local Open Scope nat_scope.

Abbreviation text := (list ascii).

(** ** Python [str] primitives *)
Module Py.

Definition L (s : string) : text := list_ascii_of_string s.

Definition code (c : ascii) : nat := nat_of_ascii c.

Definition between (lo hi : nat) (c : ascii) : bool :=
  (lo <=? code c) && (code c <=? hi).

(** [str.isspace] on ASCII: TAB..CR, FS..US and the blank. *)
Definition is_space (c : ascii) : bool :=
  between 9 13 c || between 28 32 c.

Definition is_digit (c : ascii) : bool := between 48 57 c.
Definition is_upper (c : ascii) : bool := between 65 90 c.
Definition is_lower (c : ascii) : bool := between 97 122 c.
Definition is_alpha (c : ascii) : bool := is_upper c || is_lower c.

(** The class [\w] of the [re] module. *)
Definition is_word (c : ascii) : bool :=
  is_alpha c || is_digit c || (code c =? 95).

Definition to_lower (c : ascii) : ascii :=
  if is_upper c then ascii_of_nat (code c + 32) else c.

Definition to_upper (c : ascii) : ascii :=
  if is_lower c then ascii_of_nat (code c - 32) else c.

(** [str.lower] *)
Definition lower (s : text) : text := map to_lower s.

Fixpoint lstrip (s : text) : text :=
  match s with
  | c :: s' => if is_space c then lstrip s' else s
  | [] => []
  end.

Definition rstrip (s : text) : text := rev (lstrip (rev s)).

(** [str.strip] without argument *)
Definition strip (s : text) : text := rstrip (lstrip s).

(** [str.split] without argument: the maximal runs of non-blank
    characters.  [cur] is the word being read, reversed. *)
Fixpoint split_ws (cur : text) (s : text) : list text :=
  match s with
  | [] => match cur with [] => [] | _ => [rev cur] end
  | c :: s' =>
      if is_space c
      then match cur with
           | [] => split_ws [] s'
           | _ => rev cur :: split_ws [] s'
           end
      else split_ws (c :: cur) s'
  end.

Definition split (s : text) : list text := split_ws [] s.

(** [sep.join(parts)] *)
Fixpoint join (sep : text) (parts : list text) : text :=
  match parts with
  | [] => []
  | [p] => p
  | p :: ps => p ++ sep ++ join sep ps
  end.

(** [str.title]: a letter is upper-cased when the character before it
    is not a letter, and lower-cased otherwise. *)
Fixpoint title_from (prev_cased : bool) (s : text) : text :=
  match s with
  | [] => []
  | c :: s' =>
      (if is_alpha c
       then (if prev_cased then to_lower c else to_upper c)
       else c) :: title_from (is_alpha c) s'
  end.

Definition title (s : text) : text := title_from false s.

(** [str.isupper]: at least one cased character and no lower-case one. *)
Definition isupper (s : text) : bool :=
  existsb is_upper s && negb (existsb is_lower s).

(** [needle in haystack] *)
Fixpoint is_prefix (p s : text) : bool :=
  match p, s with
  | [], _ => true
  | a :: p', b :: s' => if ascii_dec a b then is_prefix p' s' else false
  | _ :: _, [] => false
  end.

Fixpoint contains (needle hay : text) : bool :=
  is_prefix needle hay ||
  match hay with
  | [] => false
  | _ :: hay' => contains needle hay'
  end.

(** [str.split(sep)] for a non-empty separator; [n] bounds the scan by
    the length of the text. *)
Fixpoint split_on_from (sep : text) (n : nat) (cur s : text) : list text :=
  match n with
  | O => [rev cur ++ s]
  | S n' =>
      match s with
      | [] => [rev cur]
      | c :: s' =>
          if is_prefix sep s
          then rev cur :: split_on_from sep n' [] (drop (length sep) s)
          else split_on_from sep n' (c :: cur) s'
      end
  end.

Definition split_on (sep s : text) : list text :=
  split_on_from sep (S (length s)) [] s.

(** Python's slice [l[:n]] for an integer [n]: a negative bound counts
    from the end. *)
Definition slice_to {A} (n : Z) (l : list A) : list A :=
  if (0 <=? n)%Z then take (Z.to_nat n) l
  else take (length l - Z.to_nat (- n)) l.

(** [sorted(l, key=key, reverse=True)]: the sort is stable, items of
    equal key keep their order. *)
Fixpoint insert_desc {A} (key : A -> Q) (x : A) (l : list A) : list A :=
  match l with
  | [] => [x]
  | y :: l' =>
      if negb (Qle_bool (key y) (key x))
      then y :: insert_desc key x l'
      else x :: l
  end.

Definition sorted_desc {A} (key : A -> Q) (l : list A) : list A :=
  foldr (insert_desc key) [] l.

End Py.

(** ** The fragment of Python's [re] module the program uses

    A backtracking matcher with the priorities of [re]: alternatives are
    tried left to right, a greedy repetition tries one more iteration
    before stopping and a lazy one stops before trying more.  Every
    repeated sub-pattern of the program consumes at least one character,
    so an iteration that consumes nothing is cut off. *)
Module Re.
Import Py.

Inductive regex : Type :=
| Eps
| Cls (p : ascii -> bool)
| Cat (r1 r2 : regex)
| Alt (r1 r2 : regex)
| Rep (greedy : bool) (lo : nat) (hi : option nat) (r : regex)
| Grp (n : nat) (r : regex)
| Bol
| Wordb.

(** A position in the subject: the characters already passed (last one
    first), the characters ahead and the groups captured so far. *)
Record mstate : Type := MState {
  consumed : text;
  rest : text;
  caps : list (nat * text)
}.

Definition below (n : nat) (hi : option nat) : bool :=
  match hi with
  | None => true
  | Some h => n <? h
  end.

Definition head_is (p : ascii -> bool) (s : text) : bool :=
  match s with
  | c :: _ => p c
  | [] => false
  end.

Definition at_boundary (s : mstate) : bool :=
  xorb (head_is is_word (consumed s)) (head_is is_word (rest s)).

Definition captured (s s' : mstate) : text :=
  take (length (rest s) - length (rest s')) (rest s).

(** The iterations of a repetition: [step] matches the body once, [n]
    iterations are done, and [fuel] bounds the iterations left by the
    characters left. *)
Fixpoint rep_loop (step : (mstate -> option mstate) -> mstate -> option mstate)
    (greedy : bool) (lo : nat) (hi : option nat)
    (k : mstate -> option mstate) (fuel n : nat) (s : mstate)
  : option mstate :=
  let more :=
    match fuel with
    | O => None
    | S fuel' =>
        if below n hi
        then step (fun s' =>
                     if length (rest s') <? length (rest s)
                     then rep_loop step greedy lo hi k fuel' (S n) s'
                     else None) s
        else None
    end in
  let stop := if lo <=? n then k s else None in
  if greedy
  then match more with Some e => Some e | None => stop end
  else match stop with Some e => Some e | None => more end.

Fixpoint run (r : regex) (k : mstate -> option mstate) (s : mstate)
  : option mstate :=
  match r with
  | Eps => k s
  | Cls p =>
      match rest s with
      | c :: t => if p c then k (MState (c :: consumed s) t (caps s)) else None
      | [] => None
      end
  | Cat r1 r2 => run r1 (run r2 k) s
  | Alt r1 r2 =>
      match run r1 k s with
      | Some e => Some e
      | None => run r2 k s
      end
  | Rep greedy lo hi r1 =>
      rep_loop (run r1) greedy lo hi k (S (length (rest s))) 0 s
  | Grp n r1 =>
      run r1 (fun s' => k (MState (consumed s') (rest s')
                             ((n, captured s s') :: caps s'))) s
  | Bol => match consumed s with [] => k s | _ :: _ => None end
  | Wordb => if at_boundary s then k s else None
  end.

(** A match of [r] starting exactly at the position [pre]/[s]. *)
Definition match_at (r : regex) (pre s : text) : option mstate :=
  run r Some (MState pre s []).

(** [re.match]: a match at the start of the text. *)
Definition re_match (r : regex) (s : text) : option mstate :=
  match_at r [] s.

(** [re.search]: the leftmost match. *)
Fixpoint search_from (r : regex) (pre s : text) : option mstate :=
  match match_at r pre s with
  | Some e => Some e
  | None =>
      match s with
      | [] => None
      | c :: t => search_from r (c :: pre) t
      end
  end.

Definition re_search (r : regex) (s : text) : option mstate :=
  search_from r [] s.

Definition found (o : option mstate) : bool :=
  match o with Some _ => true | None => false end.

(** Replacement templates: literal text and group references. *)
Inductive titem : Type :=
| TLit (t : text)
| TGrp (n : nat).

Definition group (n : nat) (e : mstate) : text :=
  match list_find (fun p => fst p = n) (caps e) with
  | Some (_, (_, t)) => t
  | None => []
  end.

Definition expand (repl : list titem) (e : mstate) : text :=
  concat (map (fun it => match it with
                         | TLit t => t
                         | TGrp n => group n e
                         end) repl).

(** [re.sub]: the non-overlapping matches, found left to right, are
    replaced; a search resumes where the previous match ended and still
    sees the text before it. *)
Fixpoint sub_from (r : regex) (repl : list titem) (fuel : nat)
    (pre s : text) : text :=
  match fuel with
  | O => s
  | S fuel' =>
      match match_at r pre s with
      | Some e =>
          if length (rest e) <? length s
          then expand repl e ++ sub_from r repl fuel' (consumed e) (rest e)
          else expand repl e ++
               match s with
               | [] => []
               | c :: t => c :: sub_from r repl fuel' (c :: pre) t
               end
      | None =>
          match s with
          | [] => []
          | c :: t => c :: sub_from r repl fuel' (c :: pre) t
          end
      end
  end.

Definition re_sub (r : regex) (repl : list titem) (s : text) : text :=
  sub_from r repl (S (length s)) [] s.

(** [len(re.findall(r, s))] *)
Fixpoint count_from (r : regex) (fuel : nat) (pre s : text) : nat :=
  match fuel with
  | O => 0
  | S fuel' =>
      match match_at r pre s with
      | Some e =>
          if length (rest e) <? length s
          then S (count_from r fuel' (consumed e) (rest e))
          else S (match s with
                  | [] => 0
                  | c :: t => count_from r fuel' (c :: pre) t
                  end)
      | None =>
          match s with
          | [] => 0
          | c :: t => count_from r fuel' (c :: pre) t
          end
      end
  end.

Definition findall_count (r : regex) (s : text) : nat :=
  count_from r (S (length s)) [] s.

(** [re.split] for a pattern without groups that matches no empty text:
    [cur] is the piece being read, reversed. *)
Fixpoint split_from (r : regex) (fuel : nat) (pre cur s : text) : list text :=
  match fuel with
  | O => [rev cur ++ s]
  | S fuel' =>
      match s with
      | [] => [rev cur]
      | c :: t =>
          match match_at r pre s with
          | Some e =>
              if length (rest e) <? length s
              then rev cur :: split_from r fuel' (consumed e) [] (rest e)
              else split_from r fuel' (c :: pre) (c :: cur) t
          | None => split_from r fuel' (c :: pre) (c :: cur) t
          end
      end
  end.

Definition re_split (r : regex) (s : text) : list text :=
  split_from r (S (length s)) [] [] s.

(** [re.findall] for a pattern without groups: the matched texts. *)
Fixpoint findall_from (r : regex) (fuel : nat) (pre s : text) : list text :=
  match fuel with
  | O => []
  | S fuel' =>
      match match_at r pre s with
      | Some e =>
          if length (rest e) <? length s
          then take (length s - length (rest e)) s ::
               findall_from r fuel' (consumed e) (rest e)
          else [] :: match s with
                     | [] => []
                     | c :: t => findall_from r fuel' (c :: pre) t
                     end
      | None =>
          match s with
          | [] => []
          | c :: t => findall_from r fuel' (c :: pre) t
          end
      end
  end.

Definition re_findall (r : regex) (s : text) : list text :=
  findall_from r (S (length s)) [] s.

(** Pattern syntax. *)
Definition chr (c : ascii) : regex := Cls (fun x => bool_decide (x = c)).
Definition ichr (c : ascii) : regex :=
  Cls (fun x => bool_decide (to_lower x = to_lower c)).

Fixpoint cat_all (rs : list regex) : regex :=
  match rs with
  | [] => Eps
  | [r] => r
  | r :: rs' => Cat r (cat_all rs')
  end.

Fixpoint alt_all (rs : list regex) : regex :=
  match rs with
  | [] => Cls (fun _ => false)
  | [r] => r
  | r :: rs' => Alt r (alt_all rs')
  end.

(** A literal word, and the same under [re.IGNORECASE]. *)
Definition lit (s : string) : regex := cat_all (map chr (L s)).
Definition ilit (s : string) : regex := cat_all (map ichr (L s)).

Definition plus (r : regex) : regex := Rep true 1 None r.
Definition star (r : regex) : regex := Rep true 0 None r.
Definition opt (r : regex) : regex := Rep true 0 (Some 1) r.
Definition lazy_plus (r : regex) : regex := Rep false 1 None r.
Definition at_least (n : nat) (r : regex) : regex := Rep true n None r.

Definition ws : regex := Cls is_space.            (* \s *)
Definition nws : regex := Cls (fun c => negb (is_space c)). (* [^\s] *)
Definition wd : regex := Cls is_word.             (* \w *)
Definition dg : regex := Cls is_digit.            (* \d *)
Definition lo : regex := Cls is_lower.            (* [a-z] *)
Definition up : regex := Cls is_upper.            (* [A-Z] *)
Definition al : regex := Cls is_alpha.            (* [a-zA-Z] *)
Definition dot : regex :=                          (* . *)
  Cls (fun c => negb (code c =? 10)).
Definition one_of (s : string) : regex :=
  Cls (fun c => bool_decide (c ∈ L s)).

End Re.

(** ** [difflib.SequenceMatcher(None, a, b).ratio()]

    The standard-library matcher the deduplicator calls, with no junk
    predicate and with the default [autojunk] heuristic. *)
Module Difflib.

Definition block : Type := nat * nat * nat.

Section SequenceMatcher.
Variables a b : text.

(** [__chain_b]: when [b] has 200 characters or more, a character that
    occurs more than [len(b) // 100 + 1] times is popular and is left
    out of the index [b2j]. *)
Definition popular (c : ascii) : bool :=
  (200 <=? length b) && (length b / 100 + 1 <? count_occ ascii_dec b c).

Fixpoint positions (c : ascii) (j : nat) (s : text) : list nat :=
  match s with
  | [] => []
  | x :: s' =>
      if ascii_dec x c then j :: positions c (S j) s'
      else positions c (S j) s'
  end.

Definition b2j (c : ascii) : list nat :=
  if popular c then [] else positions c 0 b.

(** [j2len.get(j - 1, 0)] *)
Definition prev_len (j2len : gmap nat nat) (j : nat) : nat :=
  match j with
  | O => 0
  | S j' => default 0 (j2len !! j')
  end.

(** The loop over the positions [j] of [a[i]] in [b]. *)
Fixpoint scan_row (i blo bhi : nat) (j2len : gmap nat nat) (js : list nat)
    (newj2len : gmap nat nat) (best : block) : gmap nat nat * block :=
  match js with
  | [] => (newj2len, best)
  | j :: js' =>
      if j <? blo then scan_row i blo bhi j2len js' newj2len best
      else if bhi <=? j then (newj2len, best)
      else
        let k := prev_len j2len j + 1 in
        let '(_, _, bestsize) := best in
        scan_row i blo bhi j2len js' (<[j:=k]> newj2len)
          (if bestsize <? k then (i + 1 - k, j + 1 - k, k) else best)
  end.

(** The loop over [i] in [range(alo, ahi)]. *)
Fixpoint scan_rows (blo bhi : nat) (rows : list nat) (j2len : gmap nat nat)
    (best : block) : block :=
  match rows with
  | [] => best
  | i :: rows' =>
      let js := match a !! i with Some c => b2j c | None => [] end in
      let '(newj2len, best') := scan_row i blo bhi j2len js ∅ best in
      scan_rows blo bhi rows' newj2len best'
  end.

(** The two loops that extend the block on each side; without a junk
    predicate the remaining two loops of [find_longest_match] do
    nothing. *)
Fixpoint extend_back (fuel alo blo : nat) (best : block) : block :=
  match fuel with
  | O => best
  | S fuel' =>
      let '(besti, bestj, bestsize) := best in
      if (alo <? besti) && (blo <? bestj) &&
         bool_decide (is_Some (a !! (besti - 1)) ∧
                      a !! (besti - 1) = b !! (bestj - 1))
      then extend_back fuel' alo blo (besti - 1, bestj - 1, bestsize + 1)
      else best
  end.

Fixpoint extend_forth (fuel ahi bhi : nat) (best : block) : block :=
  match fuel with
  | O => best
  | S fuel' =>
      let '(besti, bestj, bestsize) := best in
      if (besti + bestsize <? ahi) && (bestj + bestsize <? bhi) &&
         bool_decide (is_Some (a !! (besti + bestsize)) ∧
                      a !! (besti + bestsize) = b !! (bestj + bestsize))
      then extend_forth fuel' ahi bhi (besti, bestj, bestsize + 1)
      else best
  end.

Definition find_longest_match (alo ahi blo bhi : nat) : block :=
  let best := scan_rows blo bhi (seq alo (ahi - alo)) ∅ (alo, blo, 0) in
  let best := extend_back (fst (fst best)) alo blo best in
  extend_forth ahi ahi bhi best.

(** [get_matching_blocks]: the work list is a stack, its top first.
    Every block found is non-empty and the two ranges pushed exclude
    it, so at most [2 * len(a) + 1] ranges are ever popped.  The final
    sort and the merge of adjacent blocks do not change the sum of the
    sizes, which is all [ratio] reads; they are left out. *)
Fixpoint blocks_from (fuel : nat) (queue : list (nat * nat * nat * nat))
    (acc : list block) : list block :=
  match fuel with
  | O => acc
  | S fuel' =>
      match queue with
      | [] => acc
      | (alo, ahi, blo, bhi) :: queue' =>
          let '(i, j, k) := find_longest_match alo ahi blo bhi in
          if k =? 0 then blocks_from fuel' queue' acc
          else
            let q1 := if (alo <? i) && (blo <? j)
                      then [(alo, i, blo, j)] else [] in
            let q2 := if (i + k <? ahi) && (j + k <? bhi)
                      then [(i + k, ahi, j + k, bhi)] else [] in
            blocks_from fuel' (q2 ++ q1 ++ queue') ((i, j, k) :: acc)
      end
  end.

Definition get_matching_blocks : list block :=
  blocks_from (2 * length a + 1) [(0, length a, 0, length b)] [].

(** [sum(triple[-1] for triple in self.get_matching_blocks())] *)
Definition matches : nat :=
  foldr (fun x acc => snd x + acc) 0 get_matching_blocks.

(** [_calculate_ratio]: [2.0 * matches / length], and [1.0] when both
    texts are empty. *)
Definition ratio : Q :=
  if length a + length b =? 0 then 1%Q
  else (Z.of_nat (2 * matches) # Pos.of_nat (length a + length b))%Q.

End SequenceMatcher.

End Difflib.

(** ** Binary64 arithmetic used for the sentence counts

    [int(n * x)] for an integer [n] and a float [x]: the product is
    rounded to 53 significant bits (to nearest, ties to even) and then
    truncated towards zero.  A float is [mant * 2 ^ expo]. *)
Module Float.
Local Open Scope Z_scope.

Record double : Type := Double { mant : Z; expo : Z }.

Definition round_pos (m e : Z) : double :=
  let bits := Z.log2 m + 1 in
  if bits <=? 53 then Double m e
  else
    let sh := bits - 53 in
    let q := Z.shiftr m sh in
    let r := m mod 2 ^ sh in
    let half := 2 ^ (sh - 1) in
    let q' := if (half <? r) || ((r =? half) && Z.odd q) then q + 1 else q in
    Double q' (e + sh).

Definition round (m e : Z) : double :=
  if 0 <=? m then round_pos m e
  else let d := round_pos (- m) e in Double (- mant d) (expo d).

(** [n * x]; the integer [n] is below [2 ^ 53] in absolute value and
    converts exactly. *)
Definition mul_int (n : Z) (x : double) : double :=
  round (n * mant x) (expo x).

(** [int(x)] *)
Definition to_int (x : double) : Z :=
  if 0 <=? expo x then mant x * 2 ^ expo x
  else Z.quot (mant x) (2 ^ (- expo x)).

(** The rational a float stands for. *)
Definition to_Q (x : double) : Q := (inject_Z (mant x) * 2 ^ expo x)%Q.

(** The literals [0.7], [0.6] and [0.3]. *)
Definition f0_7 : double := Double 6305039478318694 (-53).
Definition f0_6 : double := Double 5404319552844595 (-53).
Definition f0_3 : double := Double 5404319552844595 (-54).

(** The literals [0.2], [0.5] and [0.75]. *)
Definition f0_2 : double := Double 7205759403792794 (-55).
Definition f0_5 : double := Double 4503599627370496 (-53).
Definition f0_75 : double := Double 6755399441055744 (-53).

End Float.

(** ** [deduplicator.py] *)
Module ContentDeduplicator.
Import Py Re.

(** The instance: its threshold and the set [seen_content].  The
    similarity is at least the threshold exactly when
    [2 * matches / length >= threshold] holds over the rationals: the
    quotient and the literal [0.85] are both correctly rounded, and a
    quotient different from 17/20 differs from it by at least
    [1 / (20 * length)]. *)
Record t : Type := Make {
  similarity_threshold : Q;
  seen_content : gset text
}.

Definition default_threshold : Q := (17 # 20)%Q.

Definition __init__ (similarity_threshold : Q) : t :=
  Make similarity_threshold ∅.

Definition fillers : list text :=
  map L ["the"; "a"; "an"; "and"; "or"; "but"; "in"; "on"; "at"; "to";
         "for"]%string.

Definition _normalize_text (s : text) : text :=
  let s := lower s in
  (* re.sub(r'\s+', ' ', text) *)
  let s := re_sub (plus ws) [TLit (L " ")] s in
  (* re.sub(r'[^\w\s.]', '', text) *)
  let s := re_sub (Cls (fun c => negb (is_word c || is_space c ||
                                       (code c =? 46)))) [] s in
  let words := split s in
  let words := filter (fun w => w ∉ fillers) words in
  join (L " ") words.

Definition calculate_similarity (text1 text2 : text) : Q :=
  Difflib.ratio (_normalize_text text1) (_normalize_text text2).

Definition too_short (s : text) : bool :=
  bool_decide (s = []) || (length (strip s) <? 10).

Definition similar (self : t) (text1 text2 : text) : bool :=
  Qle_bool (similarity_threshold self) (calculate_similarity text1 text2).

(** [is_duplicate]: the answer and the instance after the call. *)
Definition is_duplicate (self : t) (s : text)
    (reference_texts : option (list text)) : bool * t :=
  if too_short s then (true, self)
  else
    let comparison_set :=
      match reference_texts with
      | Some l => l
      | None => elements (seen_content self)
      end in
    if existsb (similar self s) comparison_set then (true, self)
    else (false, Make (similarity_threshold self) ({[s]} ∪ seen_content self)).

(** One turn of the loop of [deduplicate_list] on the pair
    [(unique_texts, seen_normalized)]. *)
Definition dedup_step (self : t) (st : list text * gset text) (s : text)
  : list text * gset text :=
  let '(unique_texts, seen_normalized) := st in
  if too_short s then st
  else
    let normalized := _normalize_text s in
    if bool_decide (normalized ∈ seen_normalized) then st
    else if existsb (similar self s) unique_texts then st
    else (unique_texts ++ [s], {[normalized]} ∪ seen_normalized).

Definition deduplicate_list (self : t) (texts : list text) : list text :=
  fst (foldl (dedup_step self) ([], ∅) texts).

(** [deduplicate_by_page], on the list-valued entries of the page
    dictionaries: an entry is replaced when its key is present and its
    list is not empty. *)
Definition dedup_entry (self : t) (key : text)
    (page_data : gmap text (list text)) : gmap text (list text) :=
  match page_data !! key with
  | Some ((_ :: _) as l) => <[key := deduplicate_list self l]> page_data
  | _ => page_data
  end.

Definition dedup_page (self : t) (page_data : gmap text (list text))
  : gmap text (list text) :=
  let page_data := dedup_entry self (L "concepts") page_data in
  let page_data := dedup_entry self (L "important_points") page_data in
  dedup_entry self (L "procedures") page_data.

Definition deduplicate_by_page (self : t)
    (pages_data : list (gmap text (list text)))
  : list (gmap text (list text)) :=
  map (dedup_page self) pages_data.

(** The inner loop of [remove_substrings]: [text.lower()] occurs in the
    lower-cased form of a text already added. *)
Definition is_substring (unique_texts : list text) (s : text) : bool :=
  existsb (fun unique_text => contains (lower s) (lower unique_text))
    unique_texts.

(** One turn of the outer loop of [remove_substrings]. *)
Definition substring_step (unique_texts : list text) (s : text)
  : list text :=
  if is_substring unique_texts s then unique_texts
  else unique_texts ++ [s].

Definition remove_substrings (texts : list text) : list text :=
  match texts with
  | [] => []
  | _ =>
      (* sorted(texts, key=len, reverse=True) *)
      let sorted_texts :=
        sorted_desc (fun s => inject_Z (Z.of_nat (length s))) texts in
      foldl substring_step [] sorted_texts
  end.

Definition reset (self : t) : t := Make (similarity_threshold self) ∅.

End ContentDeduplicator.

(** ** [sentence_ranker.py] *)
Module SentenceRanker.
Import Py.

Definition ranked_item : Type := nat * Q * text.

Definition score_of (x : ranked_item) : Q := snd (fst x).
Definition index_of (x : ranked_item) : nat := fst (fst x).

(** [ranked.sort(key=lambda x: x[1], reverse=True)] *)
Definition sort_desc (l : list ranked_item) : list ranked_item :=
  sorted_desc score_of l.

Section Ranker.

(** The score vector of a method ([_textrank_scores], [_tfidf_scores],
    [_position_scores], [_combined_scores]), computed in floating point
    by numpy, scikit-learn and networkx: [scores method sentences i] is
    the entry of sentence [i]. *)
Variable scores : text -> list text -> nat -> Q.

Definition rank_sentences (sentences : list text) (method : text)
  : list ranked_item :=
  match sentences with
  | [] => []
  | _ =>
      sort_desc
        (imap (fun i s => (i, scores method sentences i, s)) sentences)
  end.

Definition get_top_sentences (sentences : list text) (top_n : option Z)
    (top_percent : Float.double) (method : text) : list text :=
  match sentences with
  | [] => []
  | _ =>
      let ranked := rank_sentences sentences method in
      let top_n :=
        match top_n with
        | Some n => n
        | None =>
            Z.max 3 (Float.to_int
                       (Float.mul_int (Z.of_nat (length sentences))
                          top_percent))
        end in
      let top_indices := map index_of (slice_to top_n ranked) in
      (* top_indices.sort() *)
      let top_indices := merge_sort Nat.le top_indices in
      map (fun i => nth i sentences []) top_indices
  end.

End Ranker.

End SentenceRanker.

(** ** [summarizer.py] *)
Module Summarizer.
Import Py.

Record summary : Type := Summary {
  summary_text : text;
  summary_sentences : list text;
  original_count : option nat;
  summary_count : option nat;
  ratio : Q
}.

Section Summarizer.

(** [self.ranker], through the score vectors it computes. *)
Variable scores : text -> list text -> nat -> Q.

Definition combined : text := L "combined".

(** The defaults [summary_ratio=0.7], [min_sentences=20] and
    [top_n=50]. *)
Definition default_summary_ratio : Float.double := Float.f0_7.
Definition default_min_sentences : Z := 20.
Definition default_top_n : Z := 50.

(** [target_count] of [generate_summary] *)
Definition target_count (total_sentences : nat)
    (summary_ratio : Float.double) (min_sentences : Z)
    (max_sentences : option Z) : Z :=
  let target :=
    Z.max min_sentences
      (Float.to_int (Float.mul_int (Z.of_nat total_sentences)
                       summary_ratio)) in
  match max_sentences with
  | None => target
  | Some m => if (m =? 0)%Z then target else Z.min target m
  end.

Definition generate_summary (sentences : list text)
    (summary_ratio : Float.double) (min_sentences : Z)
    (max_sentences : option Z) : summary :=
  match sentences with
  | [] => Summary [] [] None None 0
  | _ =>
      let total_sentences := length sentences in
      let target :=
        target_count total_sentences summary_ratio min_sentences
          max_sentences in
      let summary_sentences :=
        SentenceRanker.get_top_sentences scores sentences (Some target)
          Float.f0_3 combined in
      Summary (join (L " ") summary_sentences) summary_sentences
        (Some (length sentences)) (Some (length summary_sentences))
        (Z.of_nat (length summary_sentences)
         # Pos.of_nat (length sentences))
  end.

(** [adaptive_n] of [generate_key_points] *)
Definition adaptive_n (total : nat) (top_n : Z) : Z :=
  Z.min top_n
    (Z.max 30 (Float.to_int (Float.mul_int (Z.of_nat total) Float.f0_6))).

Definition generate_key_points (sentences : list text) (top_n : Z)
  : list text :=
  match sentences with
  | [] => []
  | _ =>
      SentenceRanker.get_top_sentences scores sentences
        (Some (Z.min (adaptive_n (length sentences) top_n)
                 (Z.of_nat (length sentences))))
        Float.f0_3 combined
  end.

(** [generate_layered_summary]: the three levels, each with its text,
    its sentences and its count. *)
Record level : Type := Level {
  level_text : text;
  level_sentences : list text;
  level_count : nat
}.

Record layered : Type := Layered {
  brief : level;
  medium : level;
  detailed : level
}.

Definition layer_count (total : nat) (least : Z) (share : Float.double)
  : Z :=
  Z.max least (Float.to_int (Float.mul_int (Z.of_nat total) share)).

Definition make_level (sentences : list text) : level :=
  Level (join (L " ") sentences) sentences (length sentences).

Definition generate_layered_summary (sentences : list text) : layered :=
  let total := length sentences in
  let brief_count := layer_count total 10 Float.f0_2 in
  let medium_count := layer_count total 30 Float.f0_5 in
  let detailed_count := layer_count total 50 Float.f0_75 in
  let top n :=
    SentenceRanker.get_top_sentences scores sentences (Some n)
      Float.f0_3 combined in
  Layered (make_level (top brief_count)) (make_level (top medium_count))
    (make_level (top detailed_count)).

End Summarizer.

End Summarizer.

(** ** [intelligent_extractor.py] *)
Module IntelligentExtractor.
Import Py Re.

Inductive category : Type := definition | concept | procedure | content.

#[global] Instance category_eq_dec : EqDecision category.
Proof. solve_decision. Defined.

Record point : Type := Point {
  point_text : text;
  point_page : Z;
  point_type : category
}.

Record page_content : Type := PageContent {
  heading : option text;
  points : list point;
  page : Z;
  definitions : list text;
  concepts : list text;
  procedures : list text
}.

(** [\b(w1|w2|...)\b] under [re.IGNORECASE] *)
Definition iword (alts : list regex) : regex :=
  cat_all [Wordb; Grp 1 (alt_all alts); Wordb].

Definition any_search (patterns : list regex) (sent : text) : bool :=
  existsb (fun p => found (re_search p sent)) patterns.

Definition definition_patterns : list regex :=
  [ iword [ilit "is"; ilit "are";
           cat_all [ilit "refer"; opt (ichr "s"); ilit " to"];
           cat_all [ilit "mean"; opt (ichr "s")];
           ilit "defined as"; ilit "known as"];
    iword [ilit "definition"; ilit "defined"];
    (* ^[A-Z][a-z]+: *)
    cat_all [Bol; al; plus al; chr ":"];
    iword [ilit "called"; ilit "termed"] ].

Definition _is_definition (sent : text) : bool :=
  any_search definition_patterns sent.

Definition procedure_indicators : list regex :=
  [ (* ^\d+\. *)
    cat_all [Bol; plus dg; chr "."];
    iword [ilit "step"; ilit "first"; ilit "second"; ilit "then";
           ilit "next"; ilit "finally"; ilit "procedure"];
    iword [ilit "method"; ilit "process"; ilit "technique"];
    iword [ilit "should"; ilit "must"; ilit "need to"; ilit "have to"] ].

Definition _is_procedure (sent : text) : bool :=
  any_search procedure_indicators sent.

Definition concept_indicators : list regex :=
  [ iword [ilit "principle"; ilit "theory"; ilit "concept"; ilit "idea";
           ilit "approach"];
    iword [ilit "because"; ilit "therefore"; ilit "thus"; ilit "hence";
           ilit "since"];
    iword [cat_all [ilit "allow"; opt (ichr "s")];
           cat_all [ilit "enable"; opt (ichr "s")];
           cat_all [ilit "provide"; opt (ichr "s")];
           cat_all [ilit "ensure"; opt (ichr "s")]];
    iword [ilit "advantage"; ilit "benefit"; ilit "importance";
           ilit "significance"] ].

Definition _is_concept (sent : text) : bool :=
  any_search concept_indicators sent.

Definition noise_patterns : list text :=
  map L ["dept."; "signature"; "marks obtained"; "sl.no"; "criteria";
         "page number"; "copyright"; "all rights reserved"; "table";
         "figure"]%string.

(** [len(re.findall(r'\d', sent)) / max(len(sent), 1) > 0.4], decided
    over the integers: [10 * digits > 4 * max(len, 1)]. *)
Definition _is_important (sent : text) : bool :=
  if existsb (fun p => contains p (lower sent)) noise_patterns then false
  else if 4 * Nat.max (length sent) 1 <? 10 * findall_count dg sent
  then false
  else
    let word_count := length (split sent) in
    if (word_count <? 5) || (50 <? word_count) then false
    else true.

(** [re.split(r'[.!?]+', text)], keeping the pieces of more than 20
    characters once stripped. *)
Definition _split_into_sentences (s : text) : list text :=
  let sentences := re_split (plus (one_of ".!?")) s in
  map strip (filter (fun x => 20 < length (strip x)) sentences).

Definition heading_keywords : list regex :=
  map ilit ["Aim"; "Objective"; "Introduction"; "Experiment"; "Design";
            "Implementation"; "Procedure"; "Theory"; "Result";
            "Conclusion"]%string.

Fixpoint first_heading (lines : list text) : option text :=
  match lines with
  | [] => None
  | line :: lines' =>
      let line := strip line in
      if (length line <? 3) || (100 <? length line)
      then first_heading lines'
      else if found (re_match (cat_all [Bol; Grp 1 (alt_all heading_keywords)])
                       line)
      then Some line
      (* ^\d+\.?\s+[A-Z] *)
      else if found (re_match (cat_all [Bol; plus dg; opt (chr ".");
                                        plus ws; up]) line)
      then Some line
      else if isupper line && (5 <? length line) && (length line <? 50)
      then Some line
      else first_heading lines'
  end.

Definition _detect_heading (s : text) : option text :=
  first_heading (take 10 (split_on (L (String "010" "")) s)).

(** The category of a sentence: the [if]/[elif] chain of the loop. *)
Definition classify (sent : text) : option category :=
  if _is_definition sent then Some definition
  else if _is_procedure sent then Some procedure
  else if _is_concept sent then Some concept
  else if _is_important sent then Some content
  else None.

(** The four lists the loop fills. *)
Record buckets : Type := Buckets {
  b_definitions : list text;
  b_procedures : list text;
  b_concepts : list text;
  b_general_points : list text
}.

Definition classify_step (bk : buckets) (sent : text) : buckets :=
  let sent := strip sent in
  if length sent <? 20 then bk
  else if _is_definition sent
  then Buckets (b_definitions bk ++ [sent]) (b_procedures bk)
         (b_concepts bk) (b_general_points bk)
  else if _is_procedure sent
  then Buckets (b_definitions bk) (b_procedures bk ++ [sent])
         (b_concepts bk) (b_general_points bk)
  else if _is_concept sent
  then Buckets (b_definitions bk) (b_procedures bk)
         (b_concepts bk ++ [sent]) (b_general_points bk)
  else if _is_important sent
  then Buckets (b_definitions bk) (b_procedures bk)
         (b_concepts bk) (b_general_points bk ++ [sent])
  else bk.

Definition tag (page_num : Z) (c : category) (l : list text) : list point :=
  map (fun s => Point s page_num c) l.

(** [self.deduplicator] is a [ContentDeduplicator] of threshold 0.85. *)
Definition deduplicator : ContentDeduplicator.t :=
  ContentDeduplicator.__init__ ContentDeduplicator.default_threshold.

Definition _extract_page_content (s : text) (page_num : Z) : page_content :=
  let heading := _detect_heading s in
  let sentences := _split_into_sentences s in
  let bk := foldl classify_step (Buckets [] [] [] []) sentences in
  let definitions :=
    ContentDeduplicator.deduplicate_list deduplicator (b_definitions bk) in
  let procedures :=
    ContentDeduplicator.deduplicate_list deduplicator (b_procedures bk) in
  let concepts :=
    ContentDeduplicator.deduplicate_list deduplicator (b_concepts bk) in
  let general_points :=
    ContentDeduplicator.deduplicate_list deduplicator
      (b_general_points bk) in
  let points :=
    tag page_num definition (take 5 definitions) ++
    tag page_num concept (take 5 concepts) ++
    tag page_num procedure (take 5 procedures) ++
    tag page_num content (take 10 general_points) in
  PageContent heading points page_num definitions concepts procedures.

End IntelligentExtractor.

(** ** [keyword_extractor.py] *)
Module KeywordExtractor.
Import Py Re.

(** The dictionary [results]: a key that is absent is [None]. *)
Record results : Type := Results {
  tfidf : option (list (text * Q));
  rake : option (list (Q * text));
  noun_phrases : option (list text);
  frequency : option (list (text * Z))
}.

(** A dictionary in insertion order, as [dict] keeps it:
    [d[k] = d.get(k, 0) + v]. *)
Fixpoint add_score (k : text) (v : Q) (d : list (text * Q))
  : list (text * Q) :=
  match d with
  | [] => [(k, 0 + v)%Q]
  | (k', v') :: d' =>
      if decide (k' = k) then (k', (v' + v)%Q) :: d'
      else (k', v') :: add_score k v d'
  end.

(** [collections.Counter] over a list, in insertion order. *)
Fixpoint count_up (k : text) (d : list (text * Z)) : list (text * Z) :=
  match d with
  | [] => [(k, 1%Z)]
  | (k', n) :: d' =>
      if decide (k' = k) then (k', (n + 1)%Z) :: d'
      else (k', n) :: count_up k d'
  end.

Definition Counter (l : list text) : list (text * Z) :=
  foldl (fun d k => count_up k d) [] l.

(** [Counter.most_common(n)]: [heapq.nlargest] returns nothing for
    [n <= 0] and otherwise the first [n] items by decreasing count,
    equal counts in insertion order. *)
Definition most_common (n : Z) (d : list (text * Z)) : list (text * Z) :=
  if (n <=? 0)%Z then []
  else take (Z.to_nat n) (sorted_desc (fun kv => inject_Z (snd kv)) d).

Definition weight_tfidf : Q := (35 # 100)%Q.
Definition weight_rake : Q := (25 # 100)%Q.
Definition weight_noun_phrases : Q := (20 # 100)%Q.
Definition weight_frequency : Q := (20 # 100)%Q.

Definition add_tfidf (d : list (text * Q)) (l : list (text * Q))
  : list (text * Q) :=
  foldl (fun d '(keyword, score) =>
           add_score keyword (score * weight_tfidf)%Q d) d l.

Definition add_rake (d : list (text * Q)) (l : list (Q * text))
  : list (text * Q) :=
  foldl (fun d '(score, keyword) =>
           let normalized_score :=
             if Qle_bool (score / 10) 1 then (score / 10)%Q else 1%Q in
           add_score keyword (normalized_score * weight_rake)%Q d) d l.

Definition add_noun_phrases (d : list (text * Q)) (l : list text)
  : list (text * Q) :=
  let max_rank := length l in
  fst (foldl (fun '(d, rank) phrase =>
                let score := (Z.of_nat (max_rank - rank)
                              # Pos.of_nat max_rank)%Q in
                (add_score phrase (score * weight_noun_phrases)%Q d,
                 S rank)) (d, 0) l).

(** The division [freq / max_freq] raises [ZeroDivisionError] when the
    first count is zero: the result is then [None]. *)
Definition add_frequency (d : list (text * Q)) (l : list (text * Z))
  : option (list (text * Q)) :=
  let max_freq := match l with (_, f) :: _ => f | [] => 1%Z end in
  match l with
  | [] => Some d
  | _ =>
      if (max_freq =? 0)%Z then None
      else Some (foldl (fun d '(word, freq) =>
                          let score := (inject_Z freq / inject_Z max_freq)%Q in
                          add_score word (score * weight_frequency)%Q d) d l)
  end.

Definition with_key {A B} (o : option A) (f : B -> A -> B) (d : B) : B :=
  match o with
  | Some l => f d l
  | None => d
  end.

Definition _combine_keywords (res : results) (top_n : Z)
  : option (list (text * Q)) :=
  let keyword_scores := [] in
  let keyword_scores := with_key (tfidf res) add_tfidf keyword_scores in
  let keyword_scores := with_key (rake res) add_rake keyword_scores in
  let keyword_scores :=
    with_key (noun_phrases res) add_noun_phrases keyword_scores in
  match
    match frequency res with
    | Some l => add_frequency keyword_scores l
    | None => Some keyword_scores
    end
  with
  | None => None
  | Some keyword_scores =>
      let sorted_keywords := sorted_desc snd keyword_scores in
      Some (slice_to top_n sorted_keywords)
  end.

Definition stopwords : list text :=
  map L ["this"; "that"; "with"; "from"; "have"; "been"; "were"; "will";
         "would"; "could"; "should"; "their"; "there"; "which"; "when";
         "where"; "what"; "these"; "those"]%string.

Definition _extract_frequency_keywords (s : text) (top_n : Z)
  : list (text * Z) :=
  (* re.findall(r'\b[a-z]{4,}\b', text.lower()) *)
  let words := re_findall (cat_all [Wordb; at_least 4 lo; Wordb]) (lower s) in
  let words := filter (fun w => w ∉ stopwords) words in
  most_common top_n (Counter words).

Section Extractor.

(** The libraries behind the other three methods.  [tfidf_vectorizer]
    is the body of [_extract_tfidf_keywords] past its length test, with
    the empty list for an exception; [rake_phrases], when RAKE is
    installed, is [get_ranked_phrases_with_scores] on the text (the
    empty list for an exception);
    [noun_chunks], when spaCy and its model are loaded, gives the texts
    of [doc.noun_chunks]. *)
Variable tfidf_vectorizer : list text -> Z -> list (text * Q).
Variable rake_phrases : option (text -> list (Q * text)).
Variable noun_chunks : option (text -> list text).

Definition _extract_tfidf_keywords (sentences : list text) (top_n : Z)
  : list (text * Q) :=
  if length sentences <? 2 then [] else tfidf_vectorizer sentences top_n.

Definition _extract_rake_keywords (phrases : text -> list (Q * text))
    (s : text) (top_n : Z) : list (Q * text) :=
  slice_to top_n (phrases s).

Definition _extract_noun_phrases (chunks : text -> list text) (s : text)
    (top_n : Z) : list text :=
  let noun_chunks :=
    map lower (filter (fun c => length (split c) <=? 4)
                 (chunks (take (Z.to_nat 1000000) s))) in
  map fst (most_common top_n (Counter noun_chunks)).

Record extraction : Type := Extraction_ {
  methods : results;
  combined : option (list (text * Q))
}.

Definition extract_keywords (s : text) (sentences : list text) (top_n : Z)
  : extraction :=
  let res :=
    Results (Some (_extract_tfidf_keywords sentences top_n))
      (option_map (fun f => _extract_rake_keywords f s top_n) rake_phrases)
      (option_map (fun f => _extract_noun_phrases f s top_n) noun_chunks)
      (Some (_extract_frequency_keywords s top_n)) in
  Extraction_ res (_combine_keywords res top_n).

End Extractor.

End KeywordExtractor.

(** ** [qa_generator.py] *)
Module QAGenerator.
Import Py Re.

Record qa : Type := QA {
  question : text;
  answer : text;
  qa_type : text;
  keyword : option text
}.

(** [self.question_templates['definition']], each template as the
    text before and after [{term}]. *)
Definition definition_templates : list (text * text) :=
  [ (L "What is ", L "?");
    (L "Define ", L ".");
    (L "Explain ", L ".");
    (L "What do you mean by ", L "?") ].

Definition format (template : text * text) (term : text) : text :=
  fst template ++ term ++ snd template.

Fixpoint _find_sentence_with_keyword (kw : text) (sentences : list text)
  : text :=
  match sentences with
  | [] => []
  | sentence :: sentences' =>
      if contains (lower kw) (lower sentence) then sentence
      else _find_sentence_with_keyword kw sentences'
  end.

(** [random.choice] draws from a stream of indices: the head of
    [draws] selects the template and the tail is left for the next
    call; an exhausted stream selects the first template. *)
Definition choice {A} (d : A) (l : list A) (draws : list nat)
  : A * list nat :=
  match draws with
  | [] => (nth 0 l d, [])
  | n :: draws' => (nth (n mod length l) l d, draws')
  end.

Fixpoint keyword_questions (keywords : list (text * Q))
    (sentences : list text) (draws : list nat) : list qa * list nat :=
  match keywords with
  | [] => ([], draws)
  | (kw, score) :: keywords' =>
      let answer_sent := _find_sentence_with_keyword kw sentences in
      match answer_sent with
      | [] => keyword_questions keywords' sentences draws
      | _ =>
          let '(template, draws') :=
            choice ([], []) definition_templates draws in
          let q := QA (format template (title kw)) answer_sent
                     (L "definition") (Some kw) in
          let '(qs, draws'') :=
            keyword_questions keywords' sentences draws' in
          (q :: qs, draws'')
      end
  end.

Definition _generate_keyword_questions (keywords : list (text * Q))
    (sentences : list text) (draws : list nat) : list qa * list nat :=
  keyword_questions (take 10 keywords) sentences draws.

(** [^([A-Z][a-z\s]+)\s+verb\s+(.+?)\.] *)
Definition subject_verb (verb : regex) : regex :=
  cat_all [Bol;
           Grp 1 (Cat up (plus (Cls (fun c => is_lower c || is_space c))));
           plus ws; verb; plus ws; Grp 2 (lazy_plus dot); chr "."].

Definition pattern_questions_of (sentence : text) : list qa :=
  (match re_match (subject_verb (lit "is")) sentence with
   | Some m =>
       [QA (L "What is " ++ group 1 m ++ L "?") sentence
          (L "definition") None]
   | None => []
   end) ++
  (match re_match (subject_verb (lit "can")) sentence with
   | Some m =>
       [QA (L "What can " ++ group 1 m ++ L " do?") sentence
          (L "capability") None]
   | None => []
   end) ++
  (match re_match (subject_verb (Cat (lit "help") (opt (chr "s"))))
           sentence with
   | Some m =>
       [QA (L "How does " ++ group 1 m ++ L " help?") sentence
          (L "purpose") None]
   | None => []
   end) ++
  (if contains (L "because") (lower sentence)
   then match split_on (L "because") sentence with
        | [part0; _] =>
            [QA (L "Why " ++ lower (strip part0) ++ L "?") sentence
               (L "explanation") None]
        | _ => []
        end
   else []).

Definition _generate_pattern_questions (sentences : list text) : list qa :=
  concat (map pattern_questions_of sentences).

Definition _basic_transform (sentence : text) : option qa :=
  if found (re_search (plus dg) sentence)
  then Some (QA (L "What is mentioned about " ++
                 nth 0 (split sentence) [] ++ L "?")
               sentence (L "factual") None)
  else None.

Section Generator.

(** spaCy, when it and its model are loaded: the lemma of the root verb
    and the text of the last subject token of the sentence, when both
    exist and the parse raises nothing. *)
Variable nlp : option (text -> option (text * text)).

Definition _spacy_transform (parse : text -> option (text * text))
    (sentence : text) : option qa :=
  match parse sentence with
  | Some (verb, subject) =>
      Some (QA (L "What " ++ verb ++ L " " ++ subject ++ L "?") sentence
              (L "transformed") None)
  | None => None
  end.

Definition transform_question_of (sentence : text) : list qa :=
  let word_count := length (split sentence) in
  if (word_count <? 5) || (30 <? word_count) then []
  else
    match nlp with
    | Some parse =>
        match _spacy_transform parse sentence with
        | Some q => [q]
        | None => []
        end
    | None =>
        match _basic_transform sentence with
        | Some q => [q]
        | None => []
        end
    end.

Definition _generate_transform_questions (sentences : list text)
  : list qa :=
  concat (map transform_question_of sentences).

(** One turn of the loop of [_deduplicate_questions] on the pair
    [(seen_questions, unique_pairs)]. *)
Definition dedup_step (st : gset text * list qa) (x : qa)
  : gset text * list qa :=
  let '(seen_questions, unique_pairs) := st in
  let q := strip (lower (question x)) in
  if bool_decide (q ∉ seen_questions) && negb (bool_decide (answer x = []))
  then ({[q]} ∪ seen_questions, unique_pairs ++ [x])
  else st.

Definition _deduplicate_questions (qa_pairs : list qa) : list qa :=
  snd (foldl dedup_step (∅, []) qa_pairs).

Definition generate_questions (sentences : list text)
    (keywords : list (text * Q)) (num_questions : Z) (draws : list nat)
  : list qa :=
  let '(keyword_questions, _) :=
    _generate_keyword_questions keywords sentences draws in
  let qa_pairs := keyword_questions in
  let qa_pairs := qa_pairs ++ _generate_pattern_questions sentences in
  let qa_pairs := qa_pairs ++ _generate_transform_questions sentences in
  let qa_pairs := _deduplicate_questions qa_pairs in
  slice_to num_questions qa_pairs.

End Generator.

End QAGenerator.

(** ** [advanced_cleaner.py] *)
Module AdvancedTextCleaner.
Import Py Re.

Definition sp : titem := TLit (L " ").

(** A substitution [re.sub(pattern, replacement, text)]. *)
Definition substitution : Type := regex * list titem.

Definition substitute (s : text) (step : substitution) : text :=
  re_sub (fst step) (snd step) s.

(** "Fix common OCR errors with spaces in words" *)
Definition ocr_repairs : list substitution :=
  [ (* \b(\w+)\s+(in|at|on|ed|er|ly|en)\s+g\b  ->  \1\2g *)
    (cat_all [Wordb; Grp 1 (plus wd); plus ws;
              Grp 2 (alt_all [lit "in"; lit "at"; lit "on"; lit "ed";
                              lit "er"; lit "ly"; lit "en"]);
              plus ws; lit "g"; Wordb],
     [TGrp 1; TGrp 2; TLit (L "g")]);
    (* \b(\w+)\s+at\s+ion\b  ->  \1ation *)
    (cat_all [Wordb; Grp 1 (plus wd); plus ws; lit "at"; plus ws;
              lit "ion"; Wordb],
     [TGrp 1; TLit (L "ation")]);
    (* \b(\w+)\s+on\s+s\b  ->  \1ons *)
    (cat_all [Wordb; Grp 1 (plus wd); plus ws; lit "on"; plus ws;
              lit "s"; Wordb],
     [TGrp 1; TLit (L "ons")]);
    (* \bc\s+on\s+  ->  con *)
    (cat_all [Wordb; lit "c"; plus ws; lit "on"; plus ws],
     [TLit (L "con")]);
    (* \bin\s+for\s+m  ->  inform *)
    (cat_all [Wordb; lit "in"; plus ws; lit "for"; plus ws; lit "m"],
     [TLit (L "inform")]);
    (* \bto\s+(r|s|w)\b  ->  tor *)
    (cat_all [Wordb; lit "to"; plus ws;
              Grp 1 (alt_all [lit "r"; lit "s"; lit "w"]); Wordb],
     [TLit (L "tor")]) ].

(** Steps 1 to 4 *)
Definition boundary_repairs : list substitution :=
  [ (* ([a-z])([A-Z])  ->  \1 \2 *)
    (Cat (Grp 1 lo) (Grp 2 up), [TGrp 1; sp; TGrp 2]);
    (* ([a-z])(\d)  ->  \1 \2 *)
    (Cat (Grp 1 lo) (Grp 2 dg), [TGrp 1; sp; TGrp 2]);
    (* (\d)([a-zA-Z])  ->  \1 \2 *)
    (Cat (Grp 1 dg) (Grp 2 al), [TGrp 1; sp; TGrp 2]);
    (* ([a-z])([A-Z][a-z])  ->  \1 \2 *)
    (Cat (Grp 1 lo) (Grp 2 (Cat up lo)), [TGrp 1; sp; TGrp 2]) ].

Definition common_preps : list string :=
  ["of"; "to"; "in"; "on"; "at"; "by"; "for"; "from"; "with"; "the";
   "and"]%string.

(** Step 5, for one preposition:
    [re.sub(rf'([a-z])({prep})([a-z])', r'\1 \2 \3', text,
    flags=re.IGNORECASE)] *)
Definition prep_repair (prep : string) : substitution :=
  (cat_all [Grp 1 al; Grp 2 (ilit prep); Grp 3 al],
   [TGrp 1; sp; TGrp 2; sp; TGrp 3]).

(** Step 6: ([a-z])([A-Z][a-z]{2,})  ->  \1. \2 *)
Definition sentence_repair : substitution :=
  (Cat (Grp 1 lo) (Grp 2 (Cat up (at_least 2 lo))),
   [TGrp 1; TLit (L ". "); TGrp 2]).

(** The substitutions before the last one, in the order they run. *)
Definition repairs : list substitution :=
  ocr_repairs ++ boundary_repairs ++ map prep_repair common_preps ++
  [sentence_repair].

Definition clean_concatenated_text (s : text) : text :=
  match s with
  | [] => []
  | _ =>
      let s := foldl substitute s repairs in
      (* Step 7: \s+  ->  ' ' *)
      re_sub (plus ws) [sp] s
  end.

(** The tests of [extract_meaningful_sentences] on one stripped piece.
    The two ratios are compared over the integers:
    [digits / max(len, 1) > 0.6] is [10 * digits > 6 * max(len, 1)] and
    [specials / max(len, 1) > 0.5] is [2 * specials > max(len, 1)]. *)
Definition meaningful (sent : text) : bool :=
  if length sent <? 15 then false
  else if 6 * Nat.max (length sent) 1 <? 10 * findall_count dg sent
  then false
  else if Nat.max (length sent) 1 <?
          2 * findall_count (Cls (fun c => negb (is_word c || is_space c)))
                sent
  then false
  else if length (split sent) <? 3 then false
  else if negb (found (re_search (one_of "aeiouAEIOU") sent)) then false
  else true.

Definition extract_meaningful_sentences (s : text) : list text :=
  let s := clean_concatenated_text s in
  let sentences := re_split (plus (one_of ".!?")) s in
  map strip (filter (fun x => meaningful (strip x)) sentences).

Definition remove : list titem := [].

(** The substitutions of [clean_page_content] that delete URLs, image
    sources, table markers and references. *)
Definition strip_boilerplate (s : text) : text :=
  (* https?://[^\s]+ *)
  let s := re_sub (cat_all [lit "http"; opt (chr "s"); lit "://"; plus nws])
             remove s in
  (* www\.[^\s]+ *)
  let s := re_sub (cat_all [lit "www."; plus nws]) remove s in
  (* Image\s*(?:Source|Courtesy)\s*:.*   (IGNORECASE) *)
  let s := re_sub (cat_all [ilit "Image"; star ws;
                            Alt (ilit "Source") (ilit "Courtesy");
                            star ws; chr ":"; star dot]) remove s in
  (* Table\s*:.*   (IGNORECASE) *)
  let s := re_sub (cat_all [ilit "Table"; star ws; chr ":"; star dot])
             remove s in
  (* Courtesy\s*:.*   (IGNORECASE) *)
  let s := re_sub (cat_all [ilit "Courtesy"; star ws; chr ":"; star dot])
             remove s in
  (* \[\d+\] *)
  re_sub (cat_all [chr "["; plus dg; chr "]"]) remove s.

Definition clean_page_content (s : text) : text :=
  if bool_decide (s = []) || (length (strip s) <? 50) then []
  else
    let cleaned_text := clean_concatenated_text (strip_boilerplate s) in
    let words := split cleaned_text in
    if 20 <? length words then cleaned_text
    else
      let sentences := extract_meaningful_sentences cleaned_text in
      if bool_decide (sentences = []) && (5 <? length words)
      then cleaned_text
      else join (L (String "010" "")) sentences.

End AdvancedTextCleaner.

(** ** Predicates used in the statements *)

(** The test [deduplicate_list] makes on a text [x] once the texts
    [unique_texts] have been kept: long enough, a normalized form not
    seen before, and below the threshold against every kept text. *)
Definition kept_after (self : ContentDeduplicator.t)
    (unique_texts : list text) (x : text) : bool :=
  negb (ContentDeduplicator.too_short x) &&
  negb (bool_decide (ContentDeduplicator._normalize_text x ∈
                     map ContentDeduplicator._normalize_text unique_texts)) &&
  negb (existsb (ContentDeduplicator.similar self x) unique_texts).

(** The texts of a list offered one by one to [is_duplicate] without
    reference texts: the texts it lets through, in order, and the
    instance after the calls. *)
Definition offer (st : list text * ContentDeduplicator.t) (s : text)
  : list text * ContentDeduplicator.t :=
  let '(dup, self) := ContentDeduplicator.is_duplicate (snd st) s None in
  (if dup then fst st else fst st ++ [s], self).

Definition offer_all (self : ContentDeduplicator.t) (texts : list text)
  : list text * ContentDeduplicator.t :=
  foldl offer ([], self) texts.

(** Case-insensitive containment, the test of [remove_substrings]. *)
Definition occurs_in (s u : text) : bool :=
  Py.contains (Py.lower s) (Py.lower u).

(** The order of a ranking: the higher score first and, among equal
    scores, the earlier sentence first. *)
Definition outranks (x y : SentenceRanker.ranked_item) : Prop :=
  Qlt (SentenceRanker.score_of y) (SentenceRanker.score_of x) \/
  (Qeq (SentenceRanker.score_of x) (SentenceRanker.score_of y) /\
   SentenceRanker.index_of x < SentenceRanker.index_of y).

(** The list [top_indices] of [get_top_sentences] once it is sorted. *)
Definition selected_indices (scores : text -> list text -> nat -> Q)
    (sentences : list text) (method : text) (top_n : Z) : list nat :=
  merge_sort Nat.le
    (map SentenceRanker.index_of
       (Py.slice_to top_n
          (SentenceRanker.rank_sentences scores sentences method))).

(** The four lists of the classifier, read and extended by category. *)
Definition add_to (c : IntelligentExtractor.category)
    (bk : IntelligentExtractor.buckets) (x : text)
  : IntelligentExtractor.buckets :=
  let '(IntelligentExtractor.Buckets ds ps cs gs) := bk in
  match c with
  | IntelligentExtractor.definition =>
      IntelligentExtractor.Buckets (ds ++ [x]) ps cs gs
  | IntelligentExtractor.procedure =>
      IntelligentExtractor.Buckets ds (ps ++ [x]) cs gs
  | IntelligentExtractor.concept =>
      IntelligentExtractor.Buckets ds ps (cs ++ [x]) gs
  | IntelligentExtractor.content =>
      IntelligentExtractor.Buckets ds ps cs (gs ++ [x])
  end.

Definition bucket (c : IntelligentExtractor.category)
    (bk : IntelligentExtractor.buckets) : list text :=
  match c with
  | IntelligentExtractor.definition => IntelligentExtractor.b_definitions bk
  | IntelligentExtractor.procedure => IntelligentExtractor.b_procedures bk
  | IntelligentExtractor.concept => IntelligentExtractor.b_concepts bk
  | IntelligentExtractor.content => IntelligentExtractor.b_general_points bk
  end.

(** The key [_deduplicate_questions] compares: the question text,
    lower-cased and stripped. *)
Definition question_key (x : QAGenerator.qa) : text :=
  Py.strip (Py.lower (QAGenerator.question x)).

(** The dictionary [keyword_scores]: distinct keys, each with the
    property [P]. *)
Definition scores_inv (P : text -> Prop) (d : list (text * Q)) : Prop :=
  NoDup (map fst d) /\ Forall P (map fst d).

(** Whitespace that the last substitution leaves as it is: every blank
    character is a space and is not followed by another blank. *)
Fixpoint single_spaced (s : text) : bool :=
  match s with
  | [] => true
  | c :: s' =>
      (if Py.is_space c
       then (Py.code c =? 32) && negb (Re.head_is Py.is_space s')
       else true) && single_spaced s'
  end.

(** Already-clean text: none of the repair patterns occurs in it and
    its whitespace is single spaces. *)
Definition already_clean (s : text) : bool :=
  forallb (fun step => negb (Re.found (Re.re_search (fst step) s)))
    AdvancedTextCleaner.repairs &&
  single_spaced s.

(** Quantities of [find_longest_match] on a text [a] matched with
    itself: the length of the run of characters that are not popular
    and that ends at position [j], the same for the position before
    [j], and the entry of [j] in a table [j2len]. *)
Fixpoint runlen (a : text) (j : nat) : nat :=
  match a !! j with
  | Some c =>
      if Difflib.popular a c then 0
      else S (match j with O => 0 | S j' => runlen a j' end)
  | None => 0
  end.

Definition prevrun (a : text) (j : nat) : nat :=
  match j with O => 0 | S j' => runlen a j' end.

Definition entry (j2len : gmap nat nat) (j : nat) : nat :=
  default 0 (j2len !! j).

(** While row [i] is scanned the best block lies on the diagonal, the
    entries written are bounded by the runs, and once column [i] is
    passed the best block is at least as long as the run ending at
    [i]. *)
Definition row_inv (a : text) (i : nat) (rem : list nat)
    (newj2len : gmap nat nat) (best : Difflib.block) : Prop :=
  let '(bi, bj, bk) := best in
  bi = bj /\ bi + bk <= S i /\
  (forall j, entry newj2len j <= runlen a j) /\
  (forall j, entry newj2len j <= runlen a i) /\
  (forall j, j < i -> runlen a j <= bk) /\
  (i ∈ rem \/ (entry newj2len i = runlen a i /\ runlen a i <= bk)).

(** Before row [i] is scanned. *)
Definition rows_inv (a : text) (i : nat) (j2len : gmap nat nat)
    (best : Difflib.block) : Prop :=
  let '(bi, bj, bk) := best in
  bi = bj /\ bi + bk <= i /\
  (forall j, Difflib.prev_len j2len j <= prevrun a j) /\
  (forall j, Difflib.prev_len j2len j <= prevrun a i) /\
  Difflib.prev_len j2len i = prevrun a i /\
  (forall j, j < i -> runlen a j <= bk).

(** A match only moves forward: the continuation is reached at a
    position whose remaining text is a suffix of the one it started
    from. *)
Definition forward
    (step : (Re.mstate -> option Re.mstate) -> Re.mstate -> option Re.mstate)
  : Prop :=
  forall k s e, step k s = Some e ->
    exists s', Re.rest s' `suffix_of` Re.rest s /\ k s' = Some e.

(** The work left in the stack of [get_matching_blocks]: a range of
    [n] positions of [a] is popped once and splits into ranges of fewer
    than [n] positions in all. *)
Definition queue_measure (queue : list (nat * nat * nat * nat)) : nat :=
  foldr (fun r acc => 2 * (snd (fst (fst r)) - fst (fst (fst r))) + 1 + acc)
    0 queue.

(** A block of [a[alo:bound]]. *)
Definition block_within (alo bound : nat) (best : Difflib.block) : Prop :=
  alo <= fst (fst best) /\ fst (fst best) + snd best <= bound.

(** A matching step reads its continuation only through its values. *)
Definition extensional
    (step : (Re.mstate -> option Re.mstate) -> Re.mstate -> option Re.mstate)
  : Prop :=
  forall k k' s, (forall s', k s' = k' s') -> step k s = step k' s.

(** * Properties *)

Import Py Re.

(** ** Lists, slices and the stable sort *)

Lemma slice_to_sublist {A} (n : Z) (l : list A) :
  slice_to n l `sublist_of` l.
Proof. unfold slice_to. case_match; apply sublist_take. Qed.

Lemma slice_to_length {A} (n : Z) (l : list A) :
  (0 <= n)%Z -> length (slice_to n l) = Nat.min (Z.to_nat n) (length l).
Proof.
  intros Hn. unfold slice_to.
  destruct (Z.leb_spec 0 n); [|lia]. by rewrite length_take.
Qed.

Lemma insert_desc_Permutation {A} (key : A -> Q) (x : A) (l : list A) :
  insert_desc key x l ≡ₚ x :: l.
Proof.
  induction l as [|y l IH]; simpl; [done|].
  case_match; [|done].
  rewrite IH. apply Permutation_swap.
Qed.

Lemma sorted_desc_Permutation {A} (key : A -> Q) (l : list A) :
  sorted_desc key l ≡ₚ l.
Proof.
  induction l as [|x l IH]; simpl; [done|].
  rewrite insert_desc_Permutation. by f_equiv.
Qed.

(** Reading a list at strictly increasing positions gives a
    subsequence of it. *)
Lemma nth_increasing_sublist {A} (d : A) (l : list A) :
  forall (js : list nat) (base : nat),
    StronglySorted lt js ->
    Forall (fun j => base <= j < base + length l) js ->
    map (fun j => nth (j - base) l d) js `sublist_of` l.
Proof.
  induction l as [|a l IH]; intros js base Hs Hb.
  - destruct js as [|j js]; [constructor|].
    apply Forall_cons in Hb as [Hj _]. simpl in Hj. lia.
  - destruct js as [|j js]; [apply sublist_nil_l|].
    apply StronglySorted_inv in Hs as [Hs Hlt].
    apply Forall_cons in Hb as [Hj Hb]. simpl in Hj.
    assert (Htail : Forall (fun j' => S base <= j' < S base + length l) js).
    { apply Forall_forall. intros j' Hin.
      pose proof (proj1 (Forall_forall _ _) Hlt j' Hin).
      pose proof (proj1 (Forall_forall _ _) Hb j' Hin). simpl in *. lia. }
    assert (Hshift : map (fun j' => nth (j' - base) (a :: l) d) js
                     = map (fun j' => nth (j' - S base) l d) js).
    { apply map_ext_in. intros j' Hin%list_elem_of_In.
      pose proof (proj1 (Forall_forall _ _) Htail j' Hin) as Hj'.
      cbv beta in Hj'.
      replace (j' - base) with (S (j' - S base)) by lia. done. }
    destruct (decide (j = base)) as [->|Hne].
    + rewrite map_cons, Hshift, Nat.sub_diag.
      apply (sublist_skip a). by apply IH.
    + apply sublist_cons.
      change (map (fun j' => nth (j' - base) (a :: l) d) (j :: js)
              `sublist_of` l).
      assert (Hall : Forall (fun j' => S base <= j' < S base + length l)
                       (j :: js)).
      { constructor; [lia|done]. }
      assert (Hshift' : map (fun j' => nth (j' - base) (a :: l) d) (j :: js)
                        = map (fun j' => nth (j' - S base) l d) (j :: js)).
      { apply map_ext_in. intros j' Hin%list_elem_of_In.
        pose proof (proj1 (Forall_forall _ _) Hall j' Hin) as Hj'.
        cbv beta in Hj'.
        replace (j' - base) with (S (j' - S base)) by lia. done. }
      rewrite Hshift'. apply IH; [|done]. by constructor.
Qed.

Lemma sorted_nodup_increasing (l : list nat) :
  StronglySorted Nat.le l -> NoDup l -> StronglySorted lt l.
Proof.
  induction 1 as [|x l Hs IH Hle]; intros Hnd; [constructor|].
  apply NoDup_cons in Hnd as [Hx Hnd].
  constructor; [by apply IH|].
  apply Forall_forall. intros y Hy.
  pose proof (proj1 (Forall_forall _ _) Hle y Hy).
  assert (x <> y) by (intros ->; done). lia.
Qed.

(** ** The matcher *)

Lemma rep_loop_forward step greedy lo hi k :
  forward step ->
  forall fuel n s e,
    rep_loop step greedy lo hi k fuel n s = Some e ->
    exists s', rest s' `suffix_of` rest s /\ k s' = Some e.
Proof.
  intros Hstep. induction fuel as [|fuel IH]; intros n s e.
  - simpl. intros He.
    assert (Hk : k s = Some e).
    { destruct greedy, (lo <=? n); simpl in He; try done.
      by destruct (k s). }
    exists s. split; [reflexivity|done].
  - assert (Hmore : forall e',
      (if below n hi
       then step (fun s' =>
                    if length (rest s') <? length (rest s)
                    then rep_loop step greedy lo hi k fuel (S n) s'
                    else None) s
       else None) = Some e' ->
      exists s', rest s' `suffix_of` rest s /\ k s' = Some e').
    { intros e'. destruct (below n hi); [|discriminate].
      intros (s1 & Hs1 & Hk)%Hstep.
      destruct (length (rest s1) <? length (rest s)); [|discriminate].
      apply IH in Hk as (s2 & Hs2 & Hk). exists s2. split; [|done].
      by etrans. }
    assert (Hstop : forall e',
      (if lo <=? n then k s else None) = Some e' ->
      exists s', rest s' `suffix_of` rest s /\ k s' = Some e').
    { intros e'. destruct (lo <=? n); [|discriminate].
      intros He. exists s. split; [reflexivity|done]. }
    simpl. destruct greedy.
    + destruct (if below n hi then _ else None) as [e'|] eqn:Hm.
      * intros [= <-]. by apply Hmore.
      * apply Hstop.
    + destruct (if lo <=? n then k s else None) as [e'|] eqn:Hs.
      * intros [= <-]. by apply Hstop.
      * apply Hmore.
Qed.

Lemma run_forward (r : regex) : forward (run r).
Proof.
  induction r as [|p|r1 IH1 r2 IH2|r1 IH1 r2 IH2|greedy lo hi r IH|n r IH| |];
    intros k s e; cbn [run].
  - intros He. exists s. split; [reflexivity|done].
  - destruct (rest s) as [|c t] eqn:Hrest; [discriminate|].
    destruct (p c); [|discriminate]. intros He.
    eexists. split; [|exact He]. simpl. by apply suffix_cons_r.
  - intros (s1 & Hs1 & Hk)%IH1. apply IH2 in Hk as (s2 & Hs2 & Hk).
    exists s2. split; [by etrans|done].
  - destruct (run r1 k s) as [e'|] eqn:H1.
    + intros [= <-]. by apply IH1.
    + apply IH2.
  - by apply rep_loop_forward.
  - intros (s1 & Hs1 & Hk)%IH. eexists. split; [|exact Hk]. exact Hs1.
  - destruct (consumed s); [|discriminate]. intros He. exists s. split; [reflexivity|done].
  - destruct (at_boundary s); [|discriminate]. intros He. exists s. split; [reflexivity|done].
Qed.

Lemma match_at_suffix (r : regex) (pre s : text) (e : mstate) :
  match_at r pre s = Some e -> rest e `suffix_of` s.
Proof.
  unfold match_at. intros (s' & Hs' & [= ->])%run_forward. done.
Qed.

Lemma rep_loop_ext step greedy lo hi k k' :
  extensional step -> (forall s, k s = k' s) ->
  forall fuel n s,
    rep_loop step greedy lo hi k fuel n s
    = rep_loop step greedy lo hi k' fuel n s.
Proof.
  intros Hstep Hk. induction fuel as [|fuel IH]; intros n s.
  - simpl. by rewrite Hk.
  - cbn [rep_loop]. rewrite Hk.
    rewrite (Hstep _ (fun s' =>
               if length (rest s') <? length (rest s)
               then rep_loop step greedy lo hi k' fuel (S n) s'
               else None)); [done|].
    intros s'. by rewrite IH.
Qed.

Lemma run_extensional (r : regex) : extensional (run r).
Proof.
  induction r as [|p|r1 IH1 r2 IH2|r1 IH1 r2 IH2|greedy lo hi r IH|n r IH| |];
    intros k k' s Hk; cbn [run].
  - apply Hk.
  - destruct (rest s); [done|]. by rewrite Hk.
  - apply IH1. intros s'. by apply IH2.
  - by rewrite (IH1 k k' s Hk), (IH2 k k' s Hk).
  - by apply rep_loop_ext.
  - apply IH. intros s'. apply Hk.
  - by rewrite Hk.
  - by rewrite Hk.
Qed.

(** The iterations of a repetition never run out of fuel: more fuel
    than characters left gives the same match. *)
Lemma rep_loop_fuel step greedy lo hi k :
  extensional step ->
  forall fuel n s extra,
    length (rest s) < fuel ->
    rep_loop step greedy lo hi k (fuel + extra) n s
    = rep_loop step greedy lo hi k fuel n s.
Proof.
  intros Hstep. induction fuel as [|fuel IH]; intros n s extra Hlen; [lia|].
  cbn [Nat.add rep_loop].
  rewrite (Hstep _ (fun s' =>
             if length (rest s') <? length (rest s)
             then rep_loop step greedy lo hi k fuel (S n) s'
             else None)); [done|].
  intros s'. destruct (length (rest s') <? length (rest s)) eqn:Hlt; [|done].
  apply Nat.ltb_lt in Hlt. apply IH. lia.
Qed.

(** [re.sub] reaches the end of the text: more fuel than characters
    gives the same result. *)
Lemma sub_from_fuel (r : regex) (repl : list titem) :
  forall (fuel : nat) (pre s : text) (extra : nat),
    length s < fuel ->
    sub_from r repl (fuel + extra) pre s = sub_from r repl fuel pre s.
Proof.
  induction fuel as [|fuel IH]; intros pre s extra Hlen; [lia|].
  cbn [Nat.add sub_from].
  assert (Htail : match s with
                  | [] => []
                  | c :: t => c :: sub_from r repl (fuel + extra) (c :: pre) t
                  end
                  = match s with
                    | [] => []
                    | c :: t => c :: sub_from r repl fuel (c :: pre) t
                    end).
  { destruct s as [|c t]; [done|]. rewrite IH; [done|]. simpl in Hlen. lia. }
  destruct (match_at r pre s) as [e|] eqn:Hm; [|done].
  destruct (length (rest e) <? length s) eqn:Hlt; [|by rewrite Htail].
  apply Nat.ltb_lt in Hlt. rewrite IH; [done|lia].
Qed.

(** A text in which [r] matches nowhere is left unchanged by [re.sub]. *)
Lemma sub_from_no_match (r : regex) (repl : list titem) :
  forall (s pre : text) (fuel : nat),
    search_from r pre s = None -> sub_from r repl fuel pre s = s.
Proof.
  induction s as [|c s IH]; intros pre fuel; simpl.
  - destruct (match_at r pre []) eqn:Hm; [discriminate|].
    intros _. destruct fuel; [done|]. simpl. by rewrite Hm.
  - destruct (match_at r pre (c :: s)) eqn:Hm; [discriminate|].
    intros Hs. destruct fuel; [done|]. simpl. rewrite Hm.
    f_equal. by apply IH.
Qed.

Lemma re_sub_no_match (r : regex) (repl : list titem) (s : text) :
  re_search r s = None -> re_sub r repl s = s.
Proof. apply sub_from_no_match. Qed.

(** The texts [re.findall] returns are made of characters of the
    subject. *)
Lemma findall_from_chars (r : regex) (P : ascii -> Prop) :
  forall (fuel : nat) (pre s : text),
    Forall P s -> Forall (Forall P) (findall_from r fuel pre s).
Proof.
  induction fuel as [|fuel IH]; intros pre s Hs; simpl; [constructor|].
  assert (Htail : Forall (Forall P)
            match s with
            | [] => []
            | c :: t => findall_from r fuel (c :: pre) t
            end).
  { destruct s as [|c t]; [constructor|].
    apply IH. by apply Forall_cons in Hs as [_ ?]. }
  destruct (match_at r pre s) as [e|] eqn:Hm; [|done].
  destruct (length (rest e) <? length s).
  - constructor; [by apply Forall_take|].
    apply IH. apply match_at_suffix in Hm as [k ->].
    by apply Forall_app in Hs as [_ ?].
  - constructor; [constructor|done].
Qed.

(** ** [SentenceRanker] *)

Lemma ranked_indices (scores : text -> list text -> nat -> Q)
    (sentences : list text) (method : text) :
  map SentenceRanker.index_of
    (SentenceRanker.rank_sentences scores sentences method)
  ≡ₚ seq 0 (length sentences).
Proof.
  unfold SentenceRanker.rank_sentences, SentenceRanker.sort_desc.
  destruct sentences as [|s0 sentences']; [done|].
  set (sentences := s0 :: sentences').
  rewrite sorted_desc_Permutation.
  change (SentenceRanker.index_of <$>
            imap (fun i s => (i, scores method sentences i, s)) sentences
          ≡ₚ seq 0 (length sentences)).
  rewrite fmap_imap.
  rewrite (imap_ext _ (fun i _ => i)); [|done].
  by rewrite imap_seq_0, list_fmap_id.
Qed.

Lemma top_indices_increasing (scores : text -> list text -> nat -> Q)
    (sentences : list text) (method : text) (n : Z) :
  let top_indices :=
    merge_sort Nat.le
      (map SentenceRanker.index_of
         (slice_to n
            (SentenceRanker.rank_sentences scores sentences method))) in
  StronglySorted lt top_indices /\
  Forall (fun j => j < length sentences) top_indices /\
  length top_indices = length (slice_to n (seq 0 (length sentences))).
Proof.
  intros top_indices.
  set (ranked := SentenceRanker.rank_sentences scores sentences method).
  assert (Hsub : map SentenceRanker.index_of (slice_to n ranked)
                 `sublist_of` map SentenceRanker.index_of ranked).
  { apply (fmap_sublist SentenceRanker.index_of), slice_to_sublist. }
  pose proof (ranked_indices scores sentences method) as Hperm.
  fold ranked in Hperm.
  assert (Hnd : NoDup (map SentenceRanker.index_of (slice_to n ranked))).
  { eapply sublist_NoDup; [|exact Hsub].
    rewrite Hperm. apply NoDup_seq. }
  assert (Hlt : Forall (fun j => j < length sentences)
                  (map SentenceRanker.index_of (slice_to n ranked))).
  { apply Forall_forall. intros j Hj.
    apply (sublist_subseteq _ _ Hsub) in Hj.
    rewrite Hperm in Hj. apply elem_of_seq in Hj. lia. }
  split_and!.
  - apply sorted_nodup_increasing.
    + apply StronglySorted_merge_sort; apply _.
    + unfold top_indices. by rewrite merge_sort_Permutation.
  - unfold top_indices. by rewrite merge_sort_Permutation.
  - unfold top_indices. rewrite merge_sort_Permutation, length_map.
    assert (Hlen : length ranked = length sentences).
    { rewrite <- (length_map SentenceRanker.index_of ranked), Hperm.
      apply length_seq. }
    unfold ranked in Hlen.
    unfold slice_to. case_match; rewrite !length_take, length_seq, Hlen; lia.
Qed.

(** C2. For every sentence list, every score vector, every ranking
    method and every [top_n] (given or defaulted from [top_percent]),
    [get_top_sentences] returns a subsequence of the input list, in the
    order of the input, whatever the scores are. *)
Theorem get_top_sentences_sublist
    (scores : text -> list text -> nat -> Q) (sentences : list text)
    (top_n : option Z) (top_percent : Float.double) (method : text) :
  SentenceRanker.get_top_sentences scores sentences top_n top_percent method
  `sublist_of` sentences.
Proof.
  unfold SentenceRanker.get_top_sentences.
  destruct sentences as [|s0 sentences']; [constructor|].
  set (sentences := s0 :: sentences').
  set (n := match top_n with Some n => n | None => _ end).
  destruct (top_indices_increasing scores sentences method n)
    as (Hs & Hlt & _).
  rewrite (map_ext_in _ (fun j => nth (j - 0) sentences [])).
  - apply nth_increasing_sublist; [done|].
    eapply Forall_impl; [exact Hlt|]. simpl. intros; lia.
  - intros j _. by rewrite Nat.sub_0_r.
Qed.

Lemma entry_insert (m : gmap nat nat) (j k j' : nat) :
  entry (<[j:=k]> m) j' = if decide (j = j') then k else entry m j'.
Proof.
  unfold entry. rewrite lookup_insert. by destruct (decide (j = j')).
Qed.

(** ** [SequenceMatcher]: the work list is emptied *)

Section MatchingBlocks.
Import Difflib.
Variables a b : text.

Lemma scan_row_within (i alo blo bhi : nat) (j2len : gmap nat nat) :
  alo <= i ->
  (forall j, prev_len j2len j <= i - alo) ->
  forall (js : list nat) (newj2len : gmap nat nat) (best : block),
    (forall j, entry newj2len j <= S i - alo) ->
    block_within alo (S i) best ->
    (forall j,
       entry (fst (scan_row i blo bhi j2len js newj2len best)) j
       <= S i - alo) /\
    block_within alo (S i) (snd (scan_row i blo bhi j2len js newj2len best)).
Proof.
  intros Hi Hprev. induction js as [|j js IH]; intros newj2len best Hnew Hb.
  - done.
  - cbn [scan_row]. destruct (j <? blo); [by apply IH|].
    destruct (bhi <=? j); [done|].
    destruct best as [[bi bj] bk]. apply IH.
    + intros j'. rewrite entry_insert.
      destruct (decide (j = j')); [|done]. specialize (Hprev j). lia.
    + destruct (bk <? prev_len j2len j + 1); [|done].
      specialize (Hprev j). unfold block_within. simpl. lia.
Qed.

Lemma scan_rows_within (alo blo bhi : nat) :
  forall (m i : nat) (j2len : gmap nat nat) (best : block),
    alo <= i ->
    (forall j, prev_len j2len j <= i - alo) ->
    block_within alo i best ->
    block_within alo (i + m) (scan_rows a b blo bhi (seq i m) j2len best).
Proof.
  induction m as [|m IH]; intros i j2len best Hi Hprev Hb.
  - simpl. by rewrite Nat.add_0_r.
  - cbn [seq scan_rows].
    set (js := match a !! i with Some c => b2j b c | None => [] end).
    destruct (scan_row_within i alo blo bhi j2len Hi Hprev js ∅ best)
      as [Hnew Hb'].
    { intros j. unfold entry. rewrite lookup_empty. simpl. lia. }
    { destruct Hb as [? ?]. split; [done|lia]. }
    destruct (scan_row i blo bhi j2len js ∅ best) as [newj2len best'].
    simpl in Hnew, Hb'. replace (i + S m) with (S i + m) by lia.
    apply IH; [lia| |done].
    intros [|j]; simpl; [lia|]. specialize (Hnew j). unfold entry in Hnew.
    lia.
Qed.

Lemma extend_back_within (alo blo bound : nat) :
  forall (fuel : nat) (best : block),
    block_within alo bound best ->
    block_within alo bound (extend_back a b fuel alo blo best).
Proof.
  induction fuel as [|fuel IH]; intros [[bi bj] bk] Hb; [done|].
  cbn [extend_back].
  match goal with
  | |- block_within _ _ (if ?c then _ else _) => destruct c eqn:Hc
  end; [|done].
  apply andb_prop in Hc as [[Hlt _]%andb_prop _]. apply Nat.ltb_lt in Hlt.
  apply IH. destruct Hb as [H1 H2]. unfold block_within in *. simpl in *.
  lia.
Qed.

Lemma extend_forth_within (alo ahi bhi : nat) :
  forall (fuel : nat) (best : block),
    block_within alo ahi best ->
    block_within alo ahi (extend_forth a b fuel ahi bhi best).
Proof.
  induction fuel as [|fuel IH]; intros [[bi bj] bk] Hb; [done|].
  cbn [extend_forth].
  match goal with
  | |- block_within _ _ (if ?c then _ else _) => destruct c eqn:Hc
  end; [|done].
  apply andb_prop in Hc as [[Hlt _]%andb_prop _]. apply Nat.ltb_lt in Hlt.
  apply IH. destruct Hb as [H1 H2]. unfold block_within in *. simpl in *.
  lia.
Qed.

(** The block found lies within the range of [a] searched. *)
Lemma find_longest_match_within (alo ahi blo bhi : nat) :
  alo <= ahi ->
  block_within alo ahi (find_longest_match a b alo ahi blo bhi).
Proof.
  intros Hr. unfold find_longest_match.
  apply extend_forth_within, extend_back_within.
  replace ahi with (alo + (ahi - alo)) at 1 by lia.
  apply scan_rows_within; [done| |].
  - intros [|j]; simpl; [lia|]. rewrite lookup_empty. simpl. lia.
  - unfold block_within. simpl. lia.
Qed.

(** More fuel than the work left changes nothing: the loop of
    [get_matching_blocks] ends because the stack is empty. *)
Lemma blocks_from_fuel :
  forall (fuel : nat) (queue : list (nat * nat * nat * nat))
         (acc : list block) (extra : nat),
    Forall (fun r => fst (fst (fst r)) <= snd (fst (fst r))) queue ->
    queue_measure queue <= fuel ->
    blocks_from a b (fuel + extra) queue acc = blocks_from a b fuel queue acc.
Proof.
  induction fuel as [|fuel IH]; intros queue acc extra Hwf Hm.
  - destruct queue as [|[[[alo ahi] blo] bhi] queue];
      [by destruct extra|simpl in Hm; lia].
  - destruct queue as [|[[[alo ahi] blo] bhi] queue]; [done|].
    apply Forall_cons in Hwf as [Hr Hwf]. simpl in Hr, Hm.
    cbn [Nat.add blocks_from].
    pose proof (find_longest_match_within alo ahi blo bhi Hr) as Hb.
    destruct (find_longest_match a b alo ahi blo bhi) as [[i j] k].
    destruct Hb as [H1 H2]. simpl in H1, H2.
    destruct (k =? 0) eqn:Hk; [apply IH; [done|lia]|].
    apply Nat.eqb_neq in Hk. apply IH.
    + repeat (apply Forall_app; split); [| |done].
      * destruct ((i + k <? ahi) && (j + k <? bhi));
          constructor; [simpl; lia|constructor].
      * destruct ((alo <? i) && (blo <? j));
          constructor; [simpl; lia|constructor].
    + assert (Happ : forall q1 q2,
                queue_measure (q1 ++ q2)
                = queue_measure q1 + queue_measure q2).
      { intros q1 q2. induction q1 as [|r q1 IHq]; simpl; [done|].
        rewrite IHq. lia. }
      rewrite !Happ.
      destruct ((i + k <? ahi) && (j + k <? bhi)),
               ((alo <? i) && (blo <? j)); simpl; lia.
Qed.

Lemma get_matching_blocks_fuel (extra : nat) :
  blocks_from a b (2 * length a + 1 + extra) [(0, length a, 0, length b)] []
  = get_matching_blocks a b.
Proof.
  unfold get_matching_blocks. apply blocks_from_fuel.
  - constructor; [simpl; lia|constructor].
  - simpl. lia.
Qed.

End MatchingBlocks.

(** ** [SequenceMatcher] on a text and itself *)

Section SelfSimilarity.
Import Difflib.
Variable a : text.

Lemma positions_elem (c : ascii) :
  forall (s : text) (base j : nat),
    j ∈ positions c base s <-> base <= j /\ s !! (j - base) = Some c.
Proof.
  induction s as [|x s IH]; intros base j; simpl.
  - split; [by intros ?%elem_of_nil|]. intros [_ H]. by destruct (j - base).
  - assert (Hrec : j ∈ positions c (S base) s <->
                   base < j /\ (x :: s) !! (j - base) = Some c).
    { rewrite IH. split.
      - intros [Hj Hs]. split; [lia|].
        replace (j - base) with (S (j - S base)) by lia. done.
      - intros [Hj Hs]. split; [lia|].
        replace (j - base) with (S (j - S base)) in Hs by lia. done. }
    destruct (ascii_dec x c) as [->|Hne].
    + rewrite elem_of_cons, Hrec. split.
      * intros [->|[Hj Hs]]; [|split; [lia|done]].
        split; [lia|]. by rewrite Nat.sub_diag.
      * intros [Hj Hs]. destruct (decide (j = base)) as [->|]; [by left|].
        right. split; [lia|done].
    + rewrite Hrec. split.
      * intros [Hj Hs]. split; [lia|done].
      * intros [Hj Hs]. split; [|done].
        destruct (decide (j = base)) as [->|]; [|lia].
        rewrite Nat.sub_diag in Hs. simpl in Hs. congruence.
Qed.

Lemma positions_sorted (c : ascii) :
  forall (s : text) (base : nat), StronglySorted lt (positions c base s).
Proof.
  induction s as [|x s IH]; intros base; simpl; [constructor|].
  destruct (ascii_dec x c); [|apply IH].
  constructor; [apply IH|].
  apply Forall_forall. intros j [Hj _]%positions_elem. lia.
Qed.

Lemma runlen_step (j : nat) (c : ascii) :
  a !! j = Some c -> popular a c = false -> runlen a j = S (prevrun a j).
Proof. intros Hc Hp. destruct j; simpl; by rewrite Hc, Hp. Qed.

Lemma runlen_popular (j : nat) (c : ascii) :
  a !! j = Some c -> popular a c = true -> runlen a j = 0.
Proof. intros Hc Hp. destruct j; simpl; by rewrite Hc, Hp. Qed.

Lemma runlen_bound (j : nat) : runlen a j <= S j.
Proof.
  induction j as [|j IH]; simpl.
  - destruct (a !! 0); [|lia]. destruct (popular a _); lia.
  - destruct (a !! S j); [|lia]. destruct (popular a _); lia.
Qed.

Section Row.
Variables (i : nat) (c : ascii) (j2len : gmap nat nat).
Hypothesis Hi : a !! i = Some c.
Hypothesis Hc : popular a c = false.
Hypothesis Hcol : forall j, prev_len j2len j <= prevrun a j.
Hypothesis Hrow : forall j, prev_len j2len j <= prevrun a i.
Hypothesis Hdiag : prev_len j2len i = prevrun a i.

Lemma scan_row_inv :
  forall (rem : list nat) (newj2len : gmap nat nat) (best : block),
    StronglySorted lt rem ->
    Forall (fun j => j < length a /\ a !! j = Some c) rem ->
    row_inv a i rem newj2len best ->
    row_inv a i [] (fst (scan_row i 0 (length a) j2len rem newj2len best))
      (snd (scan_row i 0 (length a) j2len rem newj2len best)).
Proof.
  induction rem as [|j rem IH]; intros newj2len best Hs Hall Hinv; [done|].
  apply StronglySorted_inv in Hs as [Hs Hlt].
  apply Forall_cons in Hall as [[Hjn Hj] Hall].
  cbn [scan_row]. change (j <? 0) with false. cbv iota.
  rewrite (proj2 (Nat.leb_gt (length a) j)) by done.
  destruct best as [[bi bj] bk]. apply IH; [done|done|].
  destruct Hinv as (Hd & Hsum & Ha & Hb & Hprev & Hi').
  pose proof (runlen_step j c Hj Hc) as Hrj.
  pose proof (runlen_step i c Hi Hc) as Hri.
  set (k := prev_len j2len j + 1).
  assert (Hkj : k <= runlen a j) by (unfold k; specialize (Hcol j); lia).
  assert (Hki : k <= runlen a i) by (unfold k; specialize (Hrow j); lia).
  assert (Hentries :
    (forall j', entry (<[j:=k]> newj2len) j' <= runlen a j') /\
    (forall j', entry (<[j:=k]> newj2len) j' <= runlen a i)).
  { split; intros j'; rewrite entry_insert;
      destruct (decide (j = j')) as [<-|]; auto. }
  destruct Hentries as [Ha' Hb'].
  destruct (decide (j = i)) as [->|Hne].
  - assert (Hk : k = runlen a i) by (unfold k; lia).
    pose proof (runlen_bound i) as Hbound.
    assert (Hdone : entry (<[i:=k]> newj2len) i = runlen a i).
    { rewrite entry_insert. by rewrite decide_True. }
    destruct (bk <? k) eqn:Hbk.
    + apply Nat.ltb_lt in Hbk. unfold row_inv.
      split_and!; [done|lia|done|done| |right; split; [done|lia]].
      intros j' Hj'. specialize (Hprev j' Hj'). lia.
    + apply Nat.ltb_ge in Hbk. unfold row_inv.
      split_and!; [done|done|done|done|done|right; split; [done|lia]].
  - assert (Hno : (bk <? k) = false).
    { apply Nat.ltb_ge. destruct Hi' as [Hin|[_ Hle]].
      - apply elem_of_cons in Hin as [?|Hin]; [congruence|].
        pose proof (proj1 (Forall_forall _ _) Hlt i Hin) as Hji.
        cbv beta in Hji. specialize (Hprev j Hji). lia.
      - lia. }
    rewrite Hno. unfold row_inv. split_and!; try done.
    destruct Hi' as [Hin|[He Hle]].
    + left. apply elem_of_cons in Hin as [?|?]; [congruence|done].
    + right. split; [|done]. rewrite entry_insert.
      by rewrite decide_False.
Qed.

End Row.

Lemma scan_rows_diagonal :
  forall (m i : nat) (j2len : gmap nat nat) (best : block),
    i + m = length a ->
    rows_inv a i j2len best ->
    exists bi bk,
      scan_rows a a 0 (length a) (seq i m) j2len best = (bi, bi, bk) /\
      bi + bk <= length a.
Proof.
  induction m as [|m IH]; intros i j2len best Hlen Hinv.
  - destruct best as [[bi bj] bk]. destruct Hinv as (-> & Hsum & _).
    exists bj, bk. split; [done|lia].
  - cbn [seq scan_rows].
    destruct (a !! i) as [c|] eqn:Hi;
      [|apply lookup_ge_None in Hi; lia].
    destruct (scan_row i 0 (length a) j2len (b2j a c) ∅ best)
      as [newj2len best'] eqn:Hrow.
    apply IH; [lia|].
    destruct best as [[bi bj] bk].
    destruct Hinv as (Hd & Hsum & Hcol & Hrw & Hdiag & Hprev).
    assert (Hfinal : row_inv a i [] newj2len best').
    { unfold b2j in Hrow. destruct (popular a c) eqn:Hc.
      - simpl in Hrow. injection Hrow as <- <-. unfold row_inv.
        split_and!; [done|lia| | |done|].
        + intros j. unfold entry. rewrite lookup_empty. simpl. lia.
        + intros j. unfold entry. rewrite lookup_empty. simpl. lia.
        + right. rewrite (runlen_popular i c Hi Hc).
          unfold entry. rewrite lookup_empty. simpl. split; [done|lia].
      - pose proof (scan_row_inv i c j2len Hi Hc Hcol Hrw Hdiag
                      (positions c 0 a) ∅ (bi, bj, bk)) as H.
        rewrite Hrow in H. simpl in H. apply H.
        + apply positions_sorted.
        + apply Forall_forall. intros j [_ Hj]%positions_elem.
          rewrite Nat.sub_0_r in Hj. split; [|done].
          by apply lookup_lt_Some in Hj.
        + unfold row_inv. split_and!; [done|lia| | |done|].
          * intros j. unfold entry. rewrite lookup_empty. simpl. lia.
          * intros j. unfold entry. rewrite lookup_empty. simpl. lia.
          * left. apply positions_elem. split; [lia|].
            by rewrite Nat.sub_0_r. }
    destruct best' as [[bi' bj'] bk'].
    destruct Hfinal as (Hd' & Hsum' & Ha & Hb & Hprev' & Hi').
    destruct Hi' as [Hin|[He Hle]]; [by apply elem_of_nil in Hin|].
    unfold rows_inv. split_and!; [done|lia| | | |].
    + intros [|j]; simpl; [lia|apply Ha].
    + intros [|j]; simpl; [lia|apply Hb].
    + simpl. exact He.
    + intros j Hj. destruct (decide (j = i)) as [->|]; [done|].
      apply Hprev'. lia.
Qed.

Lemma extend_back_diagonal :
  forall (fuel i k : nat),
    i <= fuel -> i <= length a ->
    extend_back a a fuel 0 0 (i, i, k) = (0, 0, k + i).
Proof.
  induction fuel as [|fuel IH]; intros i k Hf Hi.
  - assert (i = 0) as -> by lia. simpl. f_equal. lia.
  - cbn [extend_back]. destruct i as [|i].
    + simpl. f_equal. lia.
    + replace (0 <? S i) with true by done. cbn [andb].
      rewrite bool_decide_eq_true_2.
      * replace (S i - 1) with i by lia. rewrite IH by lia. f_equal. lia.
      * split; [|done]. apply lookup_lt_is_Some. lia.
Qed.

Lemma extend_forth_diagonal :
  forall (fuel k : nat),
    length a - k <= fuel -> k <= length a ->
    extend_forth a a fuel (length a) (length a) (0, 0, k)
    = (0, 0, length a).
Proof.
  induction fuel as [|fuel IH]; intros k Hf Hk.
  - assert (k = length a) as -> by lia. done.
  - cbn [extend_forth]. simpl (0 + k).
    destruct (k <? length a) eqn:Hlt.
    + apply Nat.ltb_lt in Hlt. cbn [andb].
      rewrite bool_decide_eq_true_2.
      * apply IH; lia.
      * split; [|done]. by apply lookup_lt_is_Some.
    + apply Nat.ltb_ge in Hlt. assert (k = length a) as -> by lia. done.
Qed.

Lemma find_longest_match_self :
  find_longest_match a a 0 (length a) 0 (length a) = (0, 0, length a).
Proof.
  unfold find_longest_match. rewrite Nat.sub_0_r.
  destruct (scan_rows_diagonal (length a) 0 ∅ (0, 0, 0))
    as (bi & bk & -> & Hsum); [done| |].
  - unfold rows_inv. split_and!; try done; try lia.
    + intros [|j]; simpl; [lia|]. rewrite lookup_empty. simpl. lia.
    + intros [|j]; simpl; [lia|]. rewrite lookup_empty. simpl. lia.
  - simpl. rewrite extend_back_diagonal by lia.
    apply extend_forth_diagonal; lia.
Qed.

Lemma matches_self : matches a a = length a.
Proof.
  unfold matches, get_matching_blocks.
  replace (2 * length a + 1) with (S (2 * length a)) by lia.
  cbn [blocks_from]. rewrite find_longest_match_self.
  destruct (length a) as [|n]; [done|].
  replace (S n =? 0) with false by done.
  replace (0 <? 0) with false by done. cbn [andb].
  replace (0 + S n <? S n) with false
    by (symmetry; apply Nat.ltb_ge; lia).
  cbn [app]. destruct (2 * S n); simpl; lia.
Qed.

(** A text has similarity ratio 1 with itself. *)
Lemma ratio_self : (ratio a a == 1)%Q.
Proof.
  unfold ratio. rewrite matches_self.
  destruct (length a + length a =? 0) eqn:Hz; [done|].
  apply Nat.eqb_neq in Hz. unfold Qeq. cbn [Qnum Qden].
  rewrite Z.mul_1_r, Z.mul_1_l.
  rewrite <- (positive_nat_Z (Pos.of_nat (length a + length a))).
  rewrite Nat2Pos.id by done. f_equal. lia.
Qed.

End SelfSimilarity.

Lemma similar_self (self : ContentDeduplicator.t) (s : text) :
  Qle (ContentDeduplicator.similarity_threshold self) 1 ->
  ContentDeduplicator.similar self s s = true.
Proof.
  intros Hthr. unfold ContentDeduplicator.similar,
    ContentDeduplicator.calculate_similarity.
  apply Qle_bool_iff. by rewrite ratio_self.
Qed.

(** ** [ContentDeduplicator.deduplicate_list] *)

Section Deduplicate.
Import ContentDeduplicator.
Variable self : ContentDeduplicator.t.

(** The set [seen_normalized] holds the normalized forms of the texts
    kept so far. *)
Lemma dedup_seen_normalized (texts : list text) :
  let st := foldl (dedup_step self) ([], ∅) texts in
  snd st = list_to_set (map _normalize_text (fst st)).
Proof.
  induction texts as [|x texts IH] using rev_ind; [done|].
  rewrite foldl_app. simpl in *.
  destruct (foldl (dedup_step self) ([], ∅) texts) as [u seen].
  simpl in *. subst seen. unfold dedup_step.
  destruct (too_short x); [done|].
  destruct (bool_decide _); [done|].
  destruct (existsb _ _); [done|]. simpl.
  rewrite map_app, list_to_set_app_L. simpl.
  rewrite (right_id_L ∅ (∪)). apply (comm_L (∪)).
Qed.

Lemma deduplicate_list_snoc (pre : list text) (x : text) :
  deduplicate_list self (pre ++ [x]) =
  deduplicate_list self pre ++
    (if kept_after self (deduplicate_list self pre) x then [x] else []).
Proof.
  unfold deduplicate_list. rewrite foldl_app. simpl.
  pose proof (dedup_seen_normalized pre) as Hseen. simpl in Hseen.
  destruct (foldl (dedup_step self) ([], ∅) pre) as [u seen].
  simpl in *. subst seen. unfold dedup_step, kept_after.
  destruct (too_short x); simpl; [by rewrite app_nil_r|].
  rewrite (bool_decide_ext (_normalize_text x ∈
             (list_to_set (map _normalize_text u) : gset text))
             (_normalize_text x ∈ map _normalize_text u))
    by apply elem_of_list_to_set.
  destruct (bool_decide _); simpl; [by rewrite app_nil_r|].
  destruct (existsb _ _); simpl; [by rewrite app_nil_r|done].
Qed.

Lemma deduplicate_list_nil : deduplicate_list self [] = [].
Proof. done. Qed.

Lemma deduplicate_list_is_sublist (texts : list text) :
  deduplicate_list self texts `sublist_of` texts.
Proof.
  induction texts as [|x texts IH] using rev_ind; [done|].
  rewrite deduplicate_list_snoc. apply sublist_app; [done|].
  case_match; [done|apply sublist_nil_l].
Qed.

Lemma deduplicate_list_long_enough (texts : list text) (x : text) :
  x ∈ deduplicate_list self texts -> too_short x = false.
Proof.
  induction texts as [|y texts IH] using rev_ind.
  - rewrite deduplicate_list_nil. by intros ?%elem_of_nil.
  - rewrite deduplicate_list_snoc, elem_of_app. intros [Hx|Hx]; [auto|].
    destruct (kept_after self _ y) eqn:Hk; [|by apply elem_of_nil in Hx].
    apply list_elem_of_singleton in Hx as ->.
    unfold kept_after in Hk.
    apply andb_prop in Hk as [[Hk _]%andb_prop _].
    by apply negb_true_iff in Hk.
Qed.

Lemma deduplicate_list_distinct (texts : list text) :
  forall l1 x l2 y l3,
    deduplicate_list self texts = l1 ++ x :: l2 ++ y :: l3 ->
    similar self y x = false /\ _normalize_text y <> _normalize_text x.
Proof.
  induction texts as [|t texts IH] using rev_ind; intros l1 x l2 y l3.
  - rewrite deduplicate_list_nil. by destruct l1.
  - rewrite deduplicate_list_snoc.
    destruct (kept_after self _ t) eqn:Hk.
    + destruct (decide (l3 = [])) as [->|Hne].
      * intros Heq.
        replace (l1 ++ x :: l2 ++ [y]) with ((l1 ++ x :: l2) ++ [y]) in Heq
          by (by rewrite <- app_assoc).
        apply app_inj_tail in Heq as [Hu ->].
        unfold kept_after in Hk.
        apply andb_prop in Hk as [[_ Hn]%andb_prop He].
        apply negb_true_iff in Hn, He.
        apply bool_decide_eq_false in Hn.
        assert (Hx : x ∈ deduplicate_list self texts)
          by (rewrite Hu; apply elem_of_app; right; left).
        split.
        -- destruct (similar self y x) eqn:Hs; [|done].
           rewrite <- He. symmetry.
           apply existsb_exists. exists x. split; [|done].
           by apply list_elem_of_In.
        -- intros Heq. apply Hn. rewrite Heq.
           apply list_elem_of_fmap. by exists x.
      * destruct (exists_last Hne) as (l3' & z & ->).
        intros Heq.
        replace (l1 ++ x :: l2 ++ y :: l3' ++ [z])
          with ((l1 ++ x :: l2 ++ y :: l3') ++ [z]) in Heq
          by (rewrite <- !app_assoc; simpl; by rewrite <- !app_assoc).
        apply app_inj_tail in Heq as [Hu _]. by eapply IH.
    + rewrite app_nil_r. apply IH.
Qed.

(** The test on the normalized form is subsumed by the similarity
    test when the threshold is a ratio: equal normalized forms have
    similarity 1. *)
Lemma kept_after_similarity (unique_texts : list text) (x : text) :
  Qle (similarity_threshold self) 1 ->
  kept_after self unique_texts x =
  negb (too_short x) && negb (existsb (similar self x) unique_texts).
Proof.
  intros Hthr. unfold kept_after.
  destruct (existsb (similar self x) unique_texts) eqn:Hex; simpl.
  - by rewrite !andb_false_r.
  - rewrite !andb_true_r.
    destruct (bool_decide _) eqn:Hin; [|by rewrite andb_true_r].
    apply bool_decide_eq_true in Hin.
    apply list_elem_of_fmap in Hin as (u & Hu & Hin).
    assert (similar self x u = true) as Hsim.
    { unfold similar, calculate_similarity. rewrite Hu.
      apply Qle_bool_iff. by rewrite ratio_self. }
    assert (existsb (similar self x) unique_texts = true) as Hex'.
    { apply existsb_exists. exists u. split; [|done].
      by apply list_elem_of_In. }
    congruence.
Qed.

End Deduplicate.

(** C1 (as amended). [deduplicate_list] returns an order-preserving
    subsequence of its input.  Scanning the input from the left, a text
    is kept exactly when its stripped length is at least 10, its
    normalized form differs from that of every text kept before it and
    its similarity to every text kept before it is below the threshold;
    for a threshold of at most 1 the test on the normalized form is
    implied by the one on the similarity.
    Hence a text whose stripped length is under 10 is never kept, and no
    kept text reaches the threshold against, or shares the normalized
    form of, a text kept before it. *)
Theorem deduplicate_list_greedy (self : ContentDeduplicator.t)
    (texts : list text) :
  ContentDeduplicator.deduplicate_list self texts `sublist_of` texts /\
  (forall pre x,
     ContentDeduplicator.deduplicate_list self (pre ++ [x]) =
     ContentDeduplicator.deduplicate_list self pre ++
       (if kept_after self (ContentDeduplicator.deduplicate_list self pre) x
        then [x] else [])) /\
  (Qle (ContentDeduplicator.similarity_threshold self) 1 ->
   forall pre x,
     kept_after self (ContentDeduplicator.deduplicate_list self pre) x =
     negb (ContentDeduplicator.too_short x) &&
     negb (existsb (ContentDeduplicator.similar self x)
             (ContentDeduplicator.deduplicate_list self pre))) /\
  (forall x,
     x ∈ ContentDeduplicator.deduplicate_list self texts ->
     10 <= length (strip x)) /\
  (forall l1 x l2 y l3,
     ContentDeduplicator.deduplicate_list self texts
       = l1 ++ x :: l2 ++ y :: l3 ->
     ContentDeduplicator.similar self y x = false /\
     ContentDeduplicator._normalize_text y
       <> ContentDeduplicator._normalize_text x).
Proof.
  split_and!.
  - apply deduplicate_list_is_sublist.
  - apply deduplicate_list_snoc.
  - intros Hthr pre x. by apply kept_after_similarity.
  - intros x Hx%deduplicate_list_long_enough.
    unfold ContentDeduplicator.too_short in Hx.
    apply orb_false_elim in Hx as [_ Hx]. apply Nat.ltb_ge in Hx. lia.
  - apply deduplicate_list_distinct.
Qed.

Lemma deduplicate_list_greedy_witness :
  let self := ContentDeduplicator.__init__
                ContentDeduplicator.default_threshold in
  let a := L "The cat sat on the mat." in
  let texts := [a; L "The cat sat on the mat!"] in
  a ∈ ContentDeduplicator.deduplicate_list self texts /\
  10 <= length (strip a).
Proof.
  intros self a texts.
  destruct (deduplicate_list_greedy self texts) as (_ & _ & _ & Hlong & _).
  assert (Hin : a ∈ ContentDeduplicator.deduplicate_list self texts)
    by (vm_compute; left).
  split; [exact Hin|exact (Hlong a Hin)].
Defined.

(** C1 fails as stated: of three different texts with one normalized
    form, the second and the third have similarity 1 and at least 10
    characters each, and neither is kept. *)
Lemma deduplicate_list_pair_both_dropped :
  let self := ContentDeduplicator.__init__
                ContentDeduplicator.default_threshold in
  ~ (forall (texts : list text) (x y : text),
       x ∈ texts -> y ∈ texts -> x <> y ->
       10 <= length x -> 10 <= length y ->
       Qle (17 # 20) (ContentDeduplicator.calculate_similarity x y) ->
       (x ∈ ContentDeduplicator.deduplicate_list self texts /\
        ~ y ∈ ContentDeduplicator.deduplicate_list self texts) \/
       (~ x ∈ ContentDeduplicator.deduplicate_list self texts /\
        y ∈ ContentDeduplicator.deduplicate_list self texts)).
Proof.
  intros self Hclaim.
  pose (a := L "The cat sat on the mat!").
  pose (b := L "The cat sat on the mat?").
  pose (c := L "the cat sat on the mat,").
  assert (Hout : ContentDeduplicator.deduplicate_list self [a; b; c] = [a])
    by (vm_compute; reflexivity).
  destruct (Hclaim [a; b; c] b c) as [[Hb _]|[_ Hc]].
  - apply list_elem_of_further, list_elem_of_here.
  - do 2 apply list_elem_of_further. apply list_elem_of_here.
  - discriminate.
  - vm_compute. lia.
  - vm_compute. lia.
  - apply Qle_bool_iff. vm_compute. reflexivity.
  - rewrite Hout in Hb. apply list_elem_of_singleton in Hb. discriminate.
  - rewrite Hout in Hc. apply list_elem_of_singleton in Hc. discriminate.
Qed.

(** ** [IntelligentExtractor._extract_page_content] *)

Section PageContent.
Import IntelligentExtractor.

(** One turn of the loop puts the sentence in the list of its category
    and in no other list. *)
Lemma classify_step_classify (bk : buckets) (sent : text) :
  classify_step bk sent =
  if length (strip sent) <? 20 then bk
  else match classify (strip sent) with
       | Some c => add_to c bk (strip sent)
       | None => bk
       end.
Proof.
  unfold classify_step, classify. destruct bk as [ds ps cs gs]. simpl.
  destruct (length (strip sent) <? 20); [done|].
  destruct (_is_definition (strip sent)); [done|].
  destruct (_is_procedure (strip sent)); [done|].
  destruct (_is_concept (strip sent)); [done|].
  by destruct (_is_important (strip sent)).
Qed.

Lemma bucket_add_to (c c' : category) (bk : buckets) (x : text) :
  bucket c (add_to c' bk x) =
  if decide (c = c') then bucket c bk ++ [x] else bucket c bk.
Proof. by destruct bk, c, c'. Qed.

Lemma buckets_classified (sentences : list text) (c : category) (x : text) :
  x ∈ bucket c (foldl classify_step (Buckets [] [] [] []) sentences) ->
  classify x = Some c.
Proof.
  induction sentences as [|s sentences IH] using rev_ind.
  - destruct c; by intros ?%elem_of_nil.
  - rewrite foldl_app. simpl. rewrite classify_step_classify.
    destruct (length (strip s) <? 20); [done|].
    destruct (classify (strip s)) as [c'|] eqn:Hc; [|done].
    rewrite bucket_add_to. destruct (decide (c = c')) as [->|]; [|done].
    rewrite elem_of_app. intros [?|Hx%list_elem_of_singleton]; [auto|].
    by subst.
Qed.

Lemma tag_elem (page_num : Z) (c : category) (l : list text) (p : point) :
  p ∈ tag page_num c l ->
  point_text p ∈ l /\ point_page p = page_num /\ point_type p = c.
Proof.
  unfold tag. intros (x & -> & Hx)%list_elem_of_fmap. by simpl.
Qed.

Lemma kept_in_bucket (k : nat) (l : list text) (x : text) :
  x ∈ take k (ContentDeduplicator.deduplicate_list deduplicator l) ->
  x ∈ l.
Proof.
  intros Hx. eapply sublist_subseteq; [|exact Hx].
  etrans; [apply sublist_take|apply deduplicate_list_is_sublist].
Qed.

Lemma points_elem (s : text) (page_num : Z) (p : point) :
  p ∈ points (_extract_page_content s page_num) ->
  point_page p = page_num /\
  point_text p ∈
    bucket (point_type p)
      (foldl classify_step (Buckets [] [] [] []) (_split_into_sentences s)).
Proof.
  unfold _extract_page_content. simpl.
  rewrite !elem_of_app.
  intros [H|[H|[H|H]]]; apply tag_elem in H as (Hx & -> & ->);
    apply kept_in_bucket in Hx; by split.
Qed.

Lemma filter_tag (page_num : Z) (c c' : category) (l : list text) :
  filter (fun p => point_type p = c) (tag page_num c' l) =
  if decide (c = c') then tag page_num c' l else [].
Proof.
  unfold tag. induction l as [|x l IH]; simpl.
  - by destruct (decide (c = c')).
  - rewrite filter_cons. simpl. rewrite IH. by destruct c, c'.
Qed.

Lemma length_tag (page_num : Z) (c : category) (l : list text) :
  length (tag page_num c l) = length l.
Proof. apply length_map. Qed.

End PageContent.

(** C3. Every sentence the classifier processes is put in at most one
    of the four lists, the one of the first predicate it satisfies in
    the order definition, procedure, concept, content.  Every point of a
    page carries the category of its text: a text that satisfies the
    definition predicate is only ever recorded as a definition, and two
    points with the same text have the same category. *)
Theorem classification_exclusive (s : text) (page_num : Z) :
  let pc := IntelligentExtractor._extract_page_content s page_num in
  (forall bk sent,
     IntelligentExtractor.classify_step bk sent =
     if length (strip sent) <? 20 then bk
     else match IntelligentExtractor.classify (strip sent) with
          | Some c => add_to c bk (strip sent)
          | None => bk
          end) /\
  (forall p, p ∈ IntelligentExtractor.points pc ->
     IntelligentExtractor.classify (IntelligentExtractor.point_text p)
     = Some (IntelligentExtractor.point_type p)) /\
  (forall p, p ∈ IntelligentExtractor.points pc ->
     IntelligentExtractor._is_definition
       (IntelligentExtractor.point_text p) = true ->
     IntelligentExtractor.point_type p = IntelligentExtractor.definition) /\
  (forall p q,
     p ∈ IntelligentExtractor.points pc ->
     q ∈ IntelligentExtractor.points pc ->
     IntelligentExtractor.point_text p = IntelligentExtractor.point_text q ->
     IntelligentExtractor.point_type p = IntelligentExtractor.point_type q).
Proof.
  intros pc.
  assert (Hcls : forall p, p ∈ IntelligentExtractor.points pc ->
            IntelligentExtractor.classify (IntelligentExtractor.point_text p)
            = Some (IntelligentExtractor.point_type p)).
  { intros p [_ Hp]%points_elem. by eapply buckets_classified. }
  split_and!.
  - apply classify_step_classify.
  - exact Hcls.
  - intros p Hp Hdef. apply Hcls in Hp.
    unfold IntelligentExtractor.classify in Hp. rewrite Hdef in Hp.
    by injection Hp.
  - intros p q Hp%Hcls Hq%Hcls Heq. rewrite Heq in Hp. congruence.
Qed.

Lemma classification_exclusive_witness :
  let s := L "Photosynthesis is the process by which plants convert light into energy. Step 1: expose the plant to light." in
  let p :=
    IntelligentExtractor.Point
      (L "Photosynthesis is the process by which plants convert light into energy")
      1 IntelligentExtractor.definition in
  p ∈ IntelligentExtractor.points
        (IntelligentExtractor._extract_page_content s 1) /\
  IntelligentExtractor.classify (IntelligentExtractor.point_text p)
  = Some IntelligentExtractor.definition.
Proof.
  intros s p.
  destruct (classification_exclusive s 1) as (_ & Hcls & _).
  assert (Hin : p ∈ IntelligentExtractor.points
                      (IntelligentExtractor._extract_page_content s 1))
    by (vm_compute; left).
  split; [exact Hin|exact (Hcls p Hin)].
Defined.

(** C9. The points of a page hold at most 5 definitions, at most 5
    concepts, at most 5 procedures and at most 10 generic content
    points, and every one of them carries the number of the page. *)
Theorem page_points_capped (s : text) (page_num : Z) :
  let pts :=
    IntelligentExtractor.points
      (IntelligentExtractor._extract_page_content s page_num) in
  let count c :=
    length (filter (fun p => IntelligentExtractor.point_type p = c) pts) in
  count IntelligentExtractor.definition <= 5 /\
  count IntelligentExtractor.concept <= 5 /\
  count IntelligentExtractor.procedure <= 5 /\
  count IntelligentExtractor.content <= 10 /\
  Forall (fun p => IntelligentExtractor.point_page p = page_num) pts.
Proof.
  intros pts count.
  assert (Hcount : forall c, count c <=
            match c with IntelligentExtractor.content => 10 | _ => 5 end).
  { intros c. unfold count, pts, IntelligentExtractor._extract_page_content.
    simpl. rewrite !filter_app, !filter_tag, !length_app.
    destruct c; simpl; rewrite ?length_tag, length_take; lia. }
  split_and!; try apply (Hcount IntelligentExtractor.definition);
    try apply (Hcount IntelligentExtractor.concept);
    try apply (Hcount IntelligentExtractor.procedure);
    try apply (Hcount IntelligentExtractor.content).
  apply Forall_forall. intros p Hp. by apply points_elem in Hp as [-> _].
Qed.

(** ** [QAGenerator] *)

Lemma deduplicate_questions_inv (qa_pairs : list QAGenerator.qa) :
  let st := foldl QAGenerator.dedup_step (∅, []) qa_pairs in
  fst st = list_to_set (map question_key (snd st)) /\
  NoDup (map question_key (snd st)) /\
  snd st `sublist_of` qa_pairs /\
  Forall (fun x => QAGenerator.answer x <> []) (snd st).
Proof.
  induction qa_pairs as [|x qa_pairs IH] using rev_ind.
  - simpl. split_and!; [done|constructor|done|constructor].
  - rewrite foldl_app. simpl in *.
    destruct (foldl QAGenerator.dedup_step (∅, []) qa_pairs) as [seen u].
    simpl in *. destruct IH as (-> & Hnd & Hsub & Hans).
    unfold QAGenerator.dedup_step. fold (question_key x).
    destruct (bool_decide (question_key x ∉ _)) eqn:Hseen; simpl.
    + destruct (bool_decide (QAGenerator.answer x = [])) eqn:Hempty; simpl.
      * split_and!; [done|done|by apply sublist_inserts_r|done].
      * apply bool_decide_eq_true in Hseen.
        apply bool_decide_eq_false in Hempty.
        rewrite elem_of_list_to_set in Hseen.
        split_and!.
        -- rewrite map_app, list_to_set_app_L. simpl.
           rewrite (right_id_L ∅ (∪)). apply (comm_L (∪)).
        -- rewrite map_app. apply NoDup_app. split_and!; [done| |].
           ++ intros k Hk ->%list_elem_of_singleton. done.
           ++ apply NoDup_singleton.
        -- by apply sublist_app.
        -- apply Forall_app. split; [done|]. by constructor.
    + split_and!; [done|done|by apply sublist_inserts_r|done].
Qed.

Lemma deduplicate_questions_NoDup (qa_pairs : list QAGenerator.qa) :
  NoDup (map question_key (QAGenerator._deduplicate_questions qa_pairs)).
Proof. apply deduplicate_questions_inv. Qed.

(** C6. In the result of [generate_questions] no two pairs have
    question texts that are equal once lower-cased and stripped, and the
    result holds at most the requested number of pairs (a count, hence
    not negative). *)
Theorem generate_questions_unique
    (nlp : option (text -> option (text * text)))
    (sentences : list text) (keywords : list (text * Q))
    (num_questions : Z) (draws : list nat) :
  let result :=
    QAGenerator.generate_questions nlp sentences keywords num_questions
      draws in
  NoDup (map question_key result) /\
  ((0 <= num_questions)%Z ->
   (Z.of_nat (length result) <= num_questions)%Z).
Proof.
  unfold QAGenerator.generate_questions.
  destruct (QAGenerator._generate_keyword_questions _ _ _) as [kq draws'].
  simpl. split.
  - eapply sublist_NoDup; [apply deduplicate_questions_NoDup|].
    apply (fmap_sublist question_key), slice_to_sublist.
  - intros Hn. rewrite slice_to_length by done. lia.
Qed.

Lemma generate_questions_unique_witness :
  let sentences :=
    [L "Machine learning is a subset of artificial intelligence.";
     L "Deep learning uses 3 layers to extract features from data."] in
  let keywords := [(L "machine learning", 9 # 10)%Q] in
  let result :=
    QAGenerator.generate_questions None sentences keywords 2 [0] in
  (0 <= 2)%Z /\
  NoDup (map question_key result) /\
  (Z.of_nat (length result) <= 2)%Z.
Proof.
  intros sentences keywords result.
  destruct (generate_questions_unique None sentences keywords 2 [0])
    as [Hnd Hlen].
  split_and!; [lia|exact Hnd|apply Hlen; lia].
Defined.

(** ** [Summarizer] *)

Lemma get_top_sentences_length (scores : text -> list text -> nat -> Q)
    (sentences : list text) (k : Z) (top_percent : Float.double)
    (method : text) :
  length (SentenceRanker.get_top_sentences scores sentences (Some k)
            top_percent method)
  = length (slice_to k (seq 0 (length sentences))).
Proof.
  unfold SentenceRanker.get_top_sentences.
  destruct sentences as [|s0 sentences'].
  { unfold slice_to. case_match; rewrite length_take; simpl; lia. }
  rewrite length_map.
  apply (top_indices_increasing scores (s0 :: sentences') method k).
Qed.

Lemma get_top_sentences_count (scores : text -> list text -> nat -> Q)
    (sentences : list text) (k : Z) (top_percent : Float.double)
    (method : text) :
  (0 <= k)%Z ->
  length (SentenceRanker.get_top_sentences scores sentences (Some k)
            top_percent method)
  = Nat.min (Z.to_nat k) (length sentences).
Proof.
  intros Hk.
  by rewrite get_top_sentences_length, slice_to_length, length_seq.
Qed.

Lemma generate_summary_sentences (scores : text -> list text -> nat -> Q)
    (sentences : list text) (r : Float.double) (min_sentences : Z)
    (max_sentences : option Z) :
  sentences <> [] ->
  Summarizer.summary_sentences
    (Summarizer.generate_summary scores sentences r min_sentences
       max_sentences)
  = SentenceRanker.get_top_sentences scores sentences
      (Some (Summarizer.target_count (length sentences) r min_sentences
               max_sentences))
      Float.f0_3 Summarizer.combined.
Proof. by destruct sentences. Qed.

Lemma generate_key_points_eq (scores : text -> list text -> nat -> Q)
    (sentences : list text) (top_n : Z) :
  sentences <> [] ->
  Summarizer.generate_key_points scores sentences top_n
  = SentenceRanker.get_top_sentences scores sentences
      (Some (Z.min (Summarizer.adaptive_n (length sentences) top_n)
               (Z.of_nat (length sentences))))
      Float.f0_3 Summarizer.combined.
Proof. by destruct sentences. Qed.

(** C4 (as amended). For every non-empty sentence list of length [n]
    and every ratio [r], with the default minimum of 20 and no cap, the
    extractive summary selects exactly [max(20, int(n * r))] sentences
    when that many exist and all [n] sentences otherwise, where [int]
    truncates the floating-point product; for every non-negative
    [top_n] the key points are [min(top_n, max(30, int(n * 0.6)))]
    sentences when that many exist and all [n] otherwise. *)
Theorem summary_sentence_count (scores : text -> list text -> nat -> Q)
    (sentences : list text) (r : Float.double) :
  sentences <> [] ->
  let n := length sentences in
  length (Summarizer.summary_sentences
            (Summarizer.generate_summary scores sentences r
               Summarizer.default_min_sentences None))
  = Nat.min
      (Z.to_nat (Z.max 20 (Float.to_int (Float.mul_int (Z.of_nat n) r))))
      n /\
  (forall top_n : Z,
     (0 <= top_n)%Z ->
     length (Summarizer.generate_key_points scores sentences top_n)
     = Nat.min
         (Z.to_nat
            (Z.min top_n
               (Z.max 30
                  (Float.to_int (Float.mul_int (Z.of_nat n) Float.f0_6)))))
         n).
Proof.
  intros Hne n. split.
  - rewrite generate_summary_sentences by done.
    unfold Summarizer.target_count, Summarizer.default_min_sentences.
    rewrite get_top_sentences_count by lia. done.
  - intros top_n Htop. rewrite generate_key_points_eq by done.
    unfold Summarizer.adaptive_n. fold n.
    rewrite get_top_sentences_count by lia. fold n. lia.
Qed.

Lemma summary_sentence_count_witness :
  let sentences := replicate 25 (L "One sentence of the document.") in
  sentences <> [] /\
  length (Summarizer.summary_sentences
            (Summarizer.generate_summary (fun _ _ _ => 0%Q) sentences
               Summarizer.default_summary_ratio
               Summarizer.default_min_sentences None)) = 20.
Proof.
  intros sentences. split; [discriminate|].
  destruct (summary_sentence_count (fun _ _ _ => 0%Q) sentences
              Summarizer.default_summary_ratio) as [H _]; [discriminate|].
  rewrite H. vm_compute. reflexivity.
Defined.

(** C4 fails as stated: 31 sentences at the default ratio 0.7 give
    [31 * 0.7 = 21.7]; the rounded-up target 22 exists, yet 21 sentences
    are selected. *)
Lemma summary_count_not_ceiling :
  let sentences := replicate 31 (L "One sentence of the document.") in
  let r := Summarizer.default_summary_ratio in
  let claimed :=
    Z.max 20 (Qceiling (inject_Z (Z.of_nat (length sentences))
                        * Float.to_Q r)) in
  claimed = 22%Z /\
  (claimed <= Z.of_nat (length sentences))%Z /\
  length (Summarizer.summary_sentences
            (Summarizer.generate_summary (fun _ _ _ => 0%Q) sentences r
               Summarizer.default_min_sentences None)) = 21.
Proof. vm_compute. split_and!; try reflexivity. discriminate. Qed.

(** ** [KeywordExtractor] *)

Lemma to_lower_idemp (c : ascii) : to_lower (to_lower c) = to_lower c.
Proof.
  destruct c as [[] [] [] [] [] [] [] []]; vm_compute; reflexivity.
Qed.

Lemma lower_idemp (s : text) : lower (lower s) = lower s.
Proof.
  unfold lower. rewrite map_map. apply map_ext. intros c.
  apply to_lower_idemp.
Qed.

Lemma lower_chars (s : text) :
  Forall (fun c => to_lower c = c) s <-> lower s = s.
Proof.
  unfold lower. induction s as [|c s IH]; simpl.
  - split; [done|constructor].
  - rewrite Forall_cons, IH. split.
    + by intros [-> ->].
    + by intros [= -> ->].
Qed.

Section KeywordScores.
Import KeywordExtractor.

Lemma add_score_keys (k : text) (v : Q) (d : list (text * Q)) :
  map fst (add_score k v d) =
  if decide (k ∈ map fst d) then map fst d else map fst d ++ [k].
Proof.
  induction d as [|[k' v'] d IH].
  - cbn [add_score map].
    destruct (decide (k ∈ [])) as [H|]; [by apply elem_of_nil in H|done].
  - cbn [add_score map fst]. destruct (decide (k' = k)) as [->|Hne].
    + cbn [map fst].
      destruct (decide (k ∈ k :: map fst d)) as [|H]; [done|].
      exfalso. apply H. left.
    + cbn [map fst]. rewrite IH.
      destruct (decide (k ∈ map fst d)) as [Hin|Hnin],
               (decide (k ∈ k' :: map fst d)) as [Hin'|Hnin']; try done.
      * exfalso. apply Hnin'. by right.
      * apply elem_of_cons in Hin' as [?|?]; [congruence|done].
Qed.

Lemma add_score_inv (P : text -> Prop) (k : text) (v : Q)
    (d : list (text * Q)) :
  scores_inv P d -> P k -> scores_inv P (add_score k v d).
Proof.
  intros [Hnd HP] Hk. unfold scores_inv. rewrite add_score_keys.
  destruct (decide (k ∈ map fst d)) as [Hin|Hnin]; [done|]. split.
  - apply NoDup_app. split_and!; [done| |apply NoDup_singleton].
    intros x Hx Hx'%list_elem_of_singleton. by subst.
  - apply Forall_app. split; [done|]. by constructor.
Qed.

Lemma add_tfidf_inv (P : text -> Prop) (l : list (text * Q)) :
  forall d, scores_inv P d -> Forall P (map fst l) ->
    scores_inv P (add_tfidf d l).
Proof.
  unfold add_tfidf. induction l as [|[k v] l IH]; intros d Hd Hl; [done|].
  simpl in *. apply Forall_cons in Hl as [Hk Hl].
  apply IH; [|done]. by apply add_score_inv.
Qed.

Lemma add_rake_inv (P : text -> Prop) (l : list (Q * text)) :
  forall d, scores_inv P d -> Forall P (map snd l) ->
    scores_inv P (add_rake d l).
Proof.
  unfold add_rake. induction l as [|[v k] l IH]; intros d Hd Hl; [done|].
  simpl in *. apply Forall_cons in Hl as [Hk Hl].
  apply IH; [|done]. by apply add_score_inv.
Qed.

Lemma add_noun_phrases_inv (P : text -> Prop) (l : list text) :
  forall d, scores_inv P d -> Forall P l ->
    scores_inv P (add_noun_phrases d l).
Proof.
  unfold add_noun_phrases. generalize (length l) as max_rank.
  generalize 0 as rank.
  induction l as [|k l IH]; intros rank max_rank d Hd Hl; [done|].
  simpl in *. apply Forall_cons in Hl as [Hk Hl].
  apply IH; [|done]. by apply add_score_inv.
Qed.

Lemma add_frequency_inv (P : text -> Prop) (l : list (text * Z))
    (d : list (text * Q)) :
  scores_inv P d -> Forall P (map fst l) ->
  Forall (fun kv => (1 <= snd kv)%Z) l ->
  exists d', add_frequency d l = Some d' /\ scores_inv P d'.
Proof.
  intros Hd Hl Hpos. unfold add_frequency.
  destruct l as [|[k0 f0] l0] eqn:El; [by exists d|].
  rewrite <- El in *.
  assert (Hf0 : (f0 =? 0)%Z = false).
  { rewrite El in Hpos. apply Forall_cons in Hpos as [H0 _].
    simpl in H0. lia. }
  rewrite Hf0. eexists. split; [done|].
  clear El Hpos Hf0. revert d Hd Hl.
  induction l as [|[k v] l IH]; intros d Hd Hl; [done|].
  simpl in *. apply Forall_cons in Hl as [Hk Hl].
  apply IH; [|done]. by apply add_score_inv.
Qed.

Lemma count_up_keys (k : text) (d : list (text * Z)) :
  map fst (count_up k d) =
  if decide (k ∈ map fst d) then map fst d else map fst d ++ [k].
Proof.
  induction d as [|[k' v'] d IH].
  - cbn [count_up map].
    destruct (decide (k ∈ [])) as [H|]; [by apply elem_of_nil in H|done].
  - cbn [count_up map fst]. destruct (decide (k' = k)) as [->|Hne].
    + cbn [map fst].
      destruct (decide (k ∈ k :: map fst d)) as [|H]; [done|].
      exfalso. apply H. left.
    + cbn [map fst]. rewrite IH.
      destruct (decide (k ∈ map fst d)) as [Hin|Hnin],
               (decide (k ∈ k' :: map fst d)) as [Hin'|Hnin']; try done.
      * exfalso. apply Hnin'. by right.
      * apply elem_of_cons in Hin' as [?|?]; [congruence|done].
Qed.

Lemma count_up_positive (k : text) (d : list (text * Z)) :
  Forall (fun kv => (1 <= snd kv)%Z) d ->
  Forall (fun kv => (1 <= snd kv)%Z) (count_up k d).
Proof.
  induction d as [|[k' v'] d IH]; simpl; intros Hd.
  - by repeat constructor.
  - apply Forall_cons in Hd as [Hv Hd]. simpl in Hv.
    destruct (decide (k' = k)); constructor; simpl; auto with lia.
Qed.

Lemma Counter_inv (P : text -> Prop) (l : list text) :
  Forall P l ->
  Forall P (map fst (Counter l)) /\
  Forall (fun kv => (1 <= snd kv)%Z) (Counter l).
Proof.
  unfold Counter. intros Hl.
  induction l as [|k l IH] using rev_ind; [by split; constructor|].
  apply Forall_app in Hl as [Hl Hk].
  rewrite foldl_app. simpl. destruct (IH Hl) as [IH1 IH2]. split.
  - rewrite count_up_keys. case_decide; [done|].
    apply Forall_app. by split.
  - by apply count_up_positive.
Qed.

Lemma most_common_sub (n : Z) (d : list (text * Z)) :
  most_common n d ⊆ d.
Proof.
  unfold most_common. destruct (n <=? 0)%Z; [apply list_subseteq_nil|].
  intros x Hx. apply (sublist_subseteq _ _ (sublist_take _ _)) in Hx.
  by rewrite sorted_desc_Permutation in Hx.
Qed.

Lemma most_common_inv (P : text -> Prop) (n : Z) (l : list text) :
  Forall P l ->
  Forall P (map fst (most_common n (Counter l))) /\
  Forall (fun kv => (1 <= snd kv)%Z) (most_common n (Counter l)).
Proof.
  intros Hl. destruct (Counter_inv P l Hl) as [H1 H2].
  pose proof (most_common_sub n (Counter l)) as Hsub. split.
  - apply Forall_forall. intros k (kv & -> & Hkv)%list_elem_of_fmap.
    apply Hsub in Hkv.
    apply (proj1 (Forall_forall _ _) H1). apply list_elem_of_fmap.
    by exists kv.
  - apply Forall_forall. intros kv Hkv%Hsub.
    by apply (proj1 (Forall_forall _ _) H2).
Qed.

Lemma frequency_keywords_lower (s : text) (top_n : Z) :
  Forall (fun k => lower k = k)
    (map fst (_extract_frequency_keywords s top_n)) /\
  Forall (fun kv => (1 <= snd kv)%Z) (_extract_frequency_keywords s top_n).
Proof.
  unfold _extract_frequency_keywords. apply most_common_inv.
  apply Forall_forall. intros w [_ Hw]%list_elem_of_filter.
  apply lower_chars.
  assert (Hall : Forall (Forall (fun c => to_lower c = c))
            (re_findall (cat_all [Wordb; at_least 4 Re.lo; Wordb])
               (lower s))).
  { apply findall_from_chars. apply lower_chars, lower_idemp. }
  by apply (proj1 (Forall_forall _ _) Hall).
Qed.

Lemma noun_phrases_lower (chunks : text -> list text) (s : text)
    (top_n : Z) :
  Forall (fun k => lower k = k) (_extract_noun_phrases chunks s top_n).
Proof.
  unfold _extract_noun_phrases. apply most_common_inv.
  apply Forall_forall. intros w (c & -> & _)%list_elem_of_fmap.
  apply lower_idemp.
Qed.

End KeywordScores.

Section KeywordFusion.
Import KeywordExtractor.

Variable tfidf_vectorizer : list text -> Z -> list (text * Q).
Variable rake_phrases : option (text -> list (Q * text)).
Variable noun_chunks : option (text -> list text).

(** scikit-learn lower-cases the documents before it tokenizes them
    ([lowercase=True] is the default of [TfidfVectorizer]) and RAKE
    lower-cases the words of its phrases. *)
Hypothesis tfidf_lowercase :
  forall sentences top_n kv,
    kv ∈ tfidf_vectorizer sentences top_n -> lower (fst kv) = fst kv.
Hypothesis rake_lowercase :
  forall phrases s vk,
    rake_phrases = Some phrases -> vk ∈ phrases s -> lower (snd vk) = snd vk.

Lemma tfidf_keywords_lower (sentences : list text) (top_n : Z) :
  Forall (fun k => lower k = k)
    (map fst (_extract_tfidf_keywords tfidf_vectorizer sentences top_n)).
Proof.
  unfold _extract_tfidf_keywords.
  destruct (length sentences <? 2); [constructor|].
  apply Forall_forall. intros k (kv & -> & Hkv)%list_elem_of_fmap.
  by eapply tfidf_lowercase.
Qed.

Lemma rake_keywords_lower (s : text) (top_n : Z) (d : list (text * Q)) :
  scores_inv (fun k => lower k = k) d ->
  scores_inv (fun k => lower k = k)
    (with_key
       (option_map (fun f => _extract_rake_keywords f s top_n) rake_phrases)
       add_rake d).
Proof.
  intros Hd. pose proof rake_lowercase as Hlow.
  destruct rake_phrases as [phrases|]; [|done]. simpl.
  apply add_rake_inv; [done|]. unfold _extract_rake_keywords.
  apply Forall_forall. intros k (vk & -> & Hvk)%list_elem_of_fmap.
  apply (sublist_subseteq _ _ (slice_to_sublist _ _)) in Hvk.
  by eapply Hlow.
Qed.

(** C5. Given the texts of the libraries in lower case, as
    scikit-learn and RAKE produce them, and a requested count [top_n]
    that is not negative, the combined keyword list of
    [extract_keywords] is produced (no division by zero), holds at most
    [top_n] entries, and no two of its entries have the same term up to
    case. *)
Theorem combined_keywords_bounded (s : text) (sentences : list text)
    (top_n : Z) :
  (0 <= top_n)%Z ->
  exists kws,
    combined (extract_keywords tfidf_vectorizer rake_phrases noun_chunks
                s sentences top_n) = Some kws /\
    (Z.of_nat (length kws) <= top_n)%Z /\
    NoDup (map (fun kv => lower (fst kv)) kws).
Proof.
  intros Htop. unfold extract_keywords, _combine_keywords. cbn [combined
    tfidf rake noun_phrases frequency with_key].
  set (P := fun k : text => lower k = k).
  set (d1 := add_tfidf [] _).
  assert (H1 : scores_inv P d1).
  { apply add_tfidf_inv; [split; constructor|].
    apply tfidf_keywords_lower. }
  set (d2 := with_key _ add_rake d1).
  assert (H2 : scores_inv P d2).
  { by apply rake_keywords_lower. }
  set (d3 := with_key _ add_noun_phrases d2).
  assert (H3 : scores_inv P d3).
  { unfold d3. destruct noun_chunks as [chunks|]; [|done]. simpl.
    apply add_noun_phrases_inv; [done|]. apply noun_phrases_lower. }
  destruct (frequency_keywords_lower s top_n) as [Hf1 Hf2].
  destruct (add_frequency_inv P _ d3 H3 Hf1 Hf2) as (d4 & -> & [Hnd HP]).
  eexists. split; [done|]. split.
  - rewrite slice_to_length by done. lia.
  - assert (Hsub : map (fun kv => lower (fst kv))
                     (slice_to top_n (sorted_desc snd d4))
                   `sublist_of`
                   map (fun kv => lower (fst kv)) (sorted_desc snd d4)).
    { apply (fmap_sublist (fun kv => lower (fst kv))), slice_to_sublist. }
    eapply sublist_NoDup; [|exact Hsub].
    rewrite sorted_desc_Permutation.
    rewrite (map_ext_in _ fst); [done|].
    intros kv Hkv%list_elem_of_In.
    apply (proj1 (Forall_forall _ _) HP). apply list_elem_of_fmap.
    by exists kv.
Qed.

End KeywordFusion.

Lemma combined_keywords_bounded_witness :
  let tfidf_vectorizer :=
    fun (_ : list text) (_ : Z) =>
      [(L "learning", 1 # 2); (L "deep learning", 1 # 4)]%Q in
  let rake_phrases :=
    Some (fun _ : text => [(4%Q, L "deep learning networks")]) in
  let noun_chunks := Some (fun _ : text => [L "Deep Learning"]) in
  let s := L "Deep learning networks keep learning from data." in
  exists kws,
    KeywordExtractor.combined
      (KeywordExtractor.extract_keywords tfidf_vectorizer rake_phrases
         noun_chunks s [s; s] 3) = Some kws /\
    (Z.of_nat (length kws) <= 3)%Z /\
    NoDup (map (fun kv => lower (fst kv)) kws).
Proof.
  intros tfidf_vectorizer rake_phrases noun_chunks s.
  apply (combined_keywords_bounded tfidf_vectorizer rake_phrases noun_chunks).
  - intros sentences top_n kv Hkv. unfold tfidf_vectorizer in Hkv.
    apply elem_of_cons in Hkv as [->|Hkv]; [reflexivity|].
    apply list_elem_of_singleton in Hkv as ->. reflexivity.
  - intros phrases s' vk [= <-] Hvk.
    apply list_elem_of_singleton in Hvk as ->. reflexivity.
  - lia.
Defined.

(** ** [AdvancedTextCleaner] *)

Section Cleaner.
Import AdvancedTextCleaner.

Lemma match_plus_ws_none (pre s : text) :
  head_is is_space s = false -> match_at (plus ws) pre s = None.
Proof.
  intros Hs. unfold match_at, plus, ws. cbn [run rest].
  destruct s as [|c s']; [done|]. simpl in Hs.
  cbn. by rewrite Hs.
Qed.

Lemma match_plus_ws_one (pre s : text) (c : ascii) :
  is_space c = true -> head_is is_space s = false ->
  match_at (plus ws) pre (c :: s) = Some (MState (c :: pre) s []).
Proof.
  intros Hc Hs. unfold match_at, plus, ws. cbn [run rest].
  cbn [length rep_loop below Nat.leb rest run consumed caps]. rewrite Hc.
  replace (length s <? S (length s)) with true
    by (symmetry; apply Nat.ltb_lt; lia).
  destruct s as [|d s']; [done|]. simpl in Hs.
  cbn. by rewrite Hs.
Qed.

Lemma sub_single_spaced :
  forall (s pre : text) (fuel : nat),
    length s < fuel -> single_spaced s = true ->
    sub_from (plus ws) [sp] fuel pre s = s.
Proof.
  induction s as [|c s IH]; intros pre fuel Hfuel Hs.
  - destruct fuel; [simpl in Hfuel; lia|]. cbn [sub_from].
    by rewrite match_plus_ws_none.
  - destruct fuel; [simpl in Hfuel; lia|].
    simpl in Hfuel, Hs. apply andb_prop in Hs as [Hc Hs].
    cbn [sub_from]. destruct (is_space c) eqn:Ec.
    + apply andb_prop in Hc as [Hcode Hnext].
      apply negb_true_iff in Hnext. apply Nat.eqb_eq in Hcode.
      rewrite match_plus_ws_one by done. cbn [rest consumed].
      replace (length s <? length (c :: s)) with true
        by (symmetry; apply Nat.ltb_lt; simpl; lia).
      rewrite IH by (done || lia).
      assert (c = " "%char) as ->; [|done].
      rewrite <- (ascii_nat_embedding c). unfold code in Hcode.
      by rewrite Hcode.
    + rewrite match_plus_ws_none by (simpl; done).
      f_equal. apply IH; [lia|done].
Qed.

Lemma foldl_substitute_clean (steps : list substitution) (s : text) :
  forallb (fun step => negb (found (re_search (fst step) s))) steps = true ->
  foldl substitute s steps = s.
Proof.
  induction steps as [|[r repl] steps IH]; simpl; [done|].
  intros [Hr Hsteps]%andb_prop. apply negb_true_iff in Hr.
  unfold substitute at 2. simpl.
  rewrite re_sub_no_match; [by apply IH|].
  by destruct (re_search r s).
Qed.

Lemma already_clean_fixed (s : text) :
  already_clean s = true -> clean_concatenated_text s = s.
Proof.
  unfold already_clean. intros [Hrep Hws]%andb_prop.
  unfold clean_concatenated_text. destruct s as [|c s']; [done|].
  rewrite foldl_substitute_clean by done.
  apply sub_single_spaced; [lia|done].
Qed.

Lemma meaningful_sentences (s : text) :
  Forall (fun x => meaningful x = true) (extract_meaningful_sentences s).
Proof.
  unfold extract_meaningful_sentences.
  apply Forall_forall. intros x (y & -> & Hy)%list_elem_of_fmap.
  by apply list_elem_of_filter in Hy as [Hy _]; apply Is_true_true in Hy.
Qed.

End Cleaner.

(** C7 (as amended). The page-cleaning operation is total.  It returns
    the empty text when the raw text is empty or has fewer than 50
    characters once stripped.  Otherwise, with [cleaned] the text after
    the boilerplate is removed and the concatenations repaired: with
    more than 20 words it returns [cleaned]; else it returns the
    meaningful sentences joined by newlines when there are any; with no
    meaningful sentence it falls back to [cleaned] only when [cleaned]
    has more than 5 words, and returns the empty text otherwise. *)
Theorem clean_page_content_cases (s : text) :
  let cleaned :=
    AdvancedTextCleaner.clean_concatenated_text
      (AdvancedTextCleaner.strip_boilerplate s) in
  let words := length (split cleaned) in
  let sentences := AdvancedTextCleaner.extract_meaningful_sentences cleaned in
  (length (strip s) < 50 ->
   AdvancedTextCleaner.clean_page_content s = []) /\
  (50 <= length (strip s) ->
   (20 < words -> AdvancedTextCleaner.clean_page_content s = cleaned) /\
   (words <= 20 -> sentences <> [] ->
    AdvancedTextCleaner.clean_page_content s
    = join (L (String "010" "")) sentences) /\
   (5 < words <= 20 -> sentences = [] ->
    AdvancedTextCleaner.clean_page_content s = cleaned) /\
   (words <= 5 -> sentences = [] ->
    AdvancedTextCleaner.clean_page_content s = [])) /\
  Forall (fun x => AdvancedTextCleaner.meaningful x = true) sentences.
Proof.
  intros cleaned words sentences.
  unfold AdvancedTextCleaner.clean_page_content.
  fold cleaned. fold sentences. fold words. split_and!.
  - intros Hlen.
    replace (length (strip s) <? 50) with true
      by (symmetry; apply Nat.ltb_lt; lia).
    by rewrite orb_true_r.
  - intros Hlen.
    assert (Hne : bool_decide (s = []) = false).
    { apply bool_decide_eq_false. intros ->. simpl in Hlen. lia. }
    rewrite Hne.
    replace (length (strip s) <? 50) with false
      by (symmetry; apply Nat.ltb_ge; lia).
    simpl. split_and!.
    + intros Hw. by rewrite (proj2 (Nat.ltb_lt _ _) Hw).
    + intros Hw Hs. rewrite (proj2 (Nat.ltb_ge _ _) Hw).
      by rewrite bool_decide_eq_false_2.
    + intros [Hw1 Hw2] Hs. rewrite (proj2 (Nat.ltb_ge _ _) Hw2).
      rewrite bool_decide_eq_true_2 by done.
      by rewrite (proj2 (Nat.ltb_lt _ _) Hw1).
    + intros Hw Hs.
      rewrite (proj2 (Nat.ltb_ge 20 words)) by lia.
      rewrite (proj2 (Nat.ltb_ge 5 words)) by lia.
      rewrite andb_false_r. by rewrite Hs.
  - apply meaningful_sentences.
Qed.

Lemma clean_page_content_cases_witness :
  let s := L "   Page 3 of 10   " in
  length (strip s) < 50 /\ AdvancedTextCleaner.clean_page_content s = [].
Proof.
  intros s. destruct (clean_page_content_cases s) as (Hshort & _).
  assert (Hlen : length (strip s) < 50) by (vm_compute; lia).
  split; [exact Hlen|exact (Hshort Hlen)].
Defined.

(** C7 fails as stated: a page of sixty letters without a blank has
    more than 50 characters, its single sentence is filtered out, and
    the result is the empty text, not the cleaned text. *)
Lemma clean_page_content_no_fallback :
  let s := L "xxxxxxxxxxxxxxxxxxxxxxxxxxxxxxxxxxxxxxxxxxxxxxxxxxxxxxxxxxxx" in
  let cleaned :=
    AdvancedTextCleaner.clean_concatenated_text
      (AdvancedTextCleaner.strip_boilerplate s) in
  50 <= length (strip s) /\
  AdvancedTextCleaner.extract_meaningful_sentences cleaned = [] /\
  cleaned = s /\
  AdvancedTextCleaner.clean_page_content s = [] /\
  AdvancedTextCleaner.clean_page_content s <> cleaned.
Proof. vm_compute. split_and!; try reflexivity; [lia|discriminate]. Qed.

(** C8 (as amended). On already-clean text, in which none of the
    repair patterns occurs and whose whitespace is single spaces, the
    concatenation repair changes nothing, so applying it twice gives
    the same text as applying it once. *)
Theorem clean_concatenated_text_idempotent (s : text) :
  already_clean s = true ->
  AdvancedTextCleaner.clean_concatenated_text s = s /\
  AdvancedTextCleaner.clean_concatenated_text
    (AdvancedTextCleaner.clean_concatenated_text s)
  = AdvancedTextCleaner.clean_concatenated_text s.
Proof.
  intros Hs. pose proof (already_clean_fixed s Hs) as Hfix.
  split; [done|]. by rewrite !Hfix.
Qed.

Lemma clean_concatenated_text_idempotent_witness :
  let s := L "The cat sat on the mat. It was 3 pm!" in
  already_clean s = true /\
  AdvancedTextCleaner.clean_concatenated_text
    (AdvancedTextCleaner.clean_concatenated_text s)
  = AdvancedTextCleaner.clean_concatenated_text s.
Proof.
  intros s.
  assert (Hs : already_clean s = true) by (vm_compute; reflexivity).
  split; [exact Hs|].
  exact (proj2 (clean_concatenated_text_idempotent s Hs)).
Defined.

(** C8 fails as stated: the prepositions of [aofbofc] overlap, the
    first pass separates one of them and the second pass the other. *)
Lemma clean_concatenated_text_not_idempotent :
  let s := L "aofbofc" in
  AdvancedTextCleaner.clean_concatenated_text s = L "a of bofc" /\
  AdvancedTextCleaner.clean_concatenated_text
    (AdvancedTextCleaner.clean_concatenated_text s) = L "a of b of c" /\
  AdvancedTextCleaner.clean_concatenated_text
    (AdvancedTextCleaner.clean_concatenated_text s)
  <> AdvancedTextCleaner.clean_concatenated_text s.
Proof. vm_compute. split_and!; try reflexivity. discriminate. Qed.

(** ** [ContentDeduplicator.is_duplicate] *)

(** C10. A call of [is_duplicate] with an explicit reference list that
    answers [False] adds the text to [seen_content], although only the
    reference list was compared; a second call on the same instance
    without a reference list then answers [True] for that text (the
    threshold being a ratio, at most 1). *)
Theorem is_duplicate_records_text (self self' : ContentDeduplicator.t)
    (s : text) (reference_texts : list text) :
  ContentDeduplicator.is_duplicate self s (Some reference_texts)
  = (false, self') ->
  s ∈ ContentDeduplicator.seen_content self' /\
  ContentDeduplicator.seen_content self'
  = {[s]} ∪ ContentDeduplicator.seen_content self /\
  (Qle (ContentDeduplicator.similarity_threshold self) 1 ->
   fst (ContentDeduplicator.is_duplicate self' s None) = true).
Proof.
  unfold ContentDeduplicator.is_duplicate at 1.
  destruct (ContentDeduplicator.too_short s) eqn:Hshort; [discriminate|].
  destruct (existsb _ reference_texts); [discriminate|].
  intros [= <-]. cbn [ContentDeduplicator.seen_content].
  split_and!; [apply elem_of_union_l, elem_of_singleton; done|done|].
  intros Hthr. unfold ContentDeduplicator.is_duplicate. rewrite Hshort.
  cbn [ContentDeduplicator.seen_content].
  set (self' := ContentDeduplicator.Make _ _).
  assert (Hex : existsb (ContentDeduplicator.similar self' s)
            (elements ({[s]} ∪ ContentDeduplicator.seen_content self))
          = true).
  { apply existsb_exists. exists s. split.
    - apply list_elem_of_In, elem_of_elements, elem_of_union_l.
      by apply elem_of_singleton.
    - by apply similar_self. }
  by rewrite Hex.
Qed.

Lemma is_duplicate_records_text_witness :
  let self :=
    ContentDeduplicator.__init__ ContentDeduplicator.default_threshold in
  let s := L "The cat sat on the mat." in
  let refs := [L "A completely different sentence about dogs."] in
  let self' := snd (ContentDeduplicator.is_duplicate self s (Some refs)) in
  ContentDeduplicator.is_duplicate self s (Some refs) = (false, self') /\
  s ∈ ContentDeduplicator.seen_content self' /\
  fst (ContentDeduplicator.is_duplicate self' s None) = true.
Proof.
  intros self s refs self'.
  assert (Hcall : ContentDeduplicator.is_duplicate self s (Some refs)
                  = (false, self')) by (vm_compute; reflexivity).
  destruct (is_duplicate_records_text self self' s refs Hcall)
    as (Hin & _ & Hdup).
  split_and!; [exact Hcall|exact Hin|].
  apply Hdup. vm_compute. discriminate.
Defined.

(** ** More on the stable sort and on sorted lists *)





(** ** Containment of texts *)

Lemma is_prefix_refl (s : text) : is_prefix s s = true.
Proof.
  induction s as [|c s IH]; simpl; [done|].
  by destruct (ascii_dec c c).
Qed.

Lemma contains_refl (s : text) : contains s s = true.
Proof.
  pose proof (is_prefix_refl s) as H.
  destruct s; simpl in *; [done|]. by rewrite H.
Qed.





Lemma occurs_in_refl (s : text) : occurs_in s s = true.
Proof. apply contains_refl. Qed.



(** ** More on [ContentDeduplicator] *)

Section DeduplicateAgain.
Import ContentDeduplicator.
Variable self : ContentDeduplicator.t.

(** Every kept text passed the test against the texts kept before
    it. *)
Lemma deduplicate_list_kept (texts : list text) :
  forall l1 x l2,
    deduplicate_list self texts = l1 ++ x :: l2 ->
    kept_after self l1 x = true.
Proof.
  induction texts as [|t texts IH] using rev_ind; intros l1 x l2.
  - rewrite deduplicate_list_nil. by destruct l1.
  - rewrite deduplicate_list_snoc.
    destruct (kept_after self _ t) eqn:Hk.
    + destruct (decide (l2 = [])) as [->|Hne].
      * intros Heq. apply app_inj_tail in Heq as [Hu ->]. by rewrite <- Hu.
      * destruct (exists_last Hne) as (l2' & z & ->).
        intros Heq. rewrite app_comm_cons, app_assoc in Heq.
        apply app_inj_tail in Heq as [Hu _]. by eapply IH.
    + rewrite app_nil_r. apply IH.
Qed.

Lemma deduplicate_list_fixed (u : list text) :
  (forall l1 x l2, u = l1 ++ x :: l2 -> kept_after self l1 x = true) ->
  deduplicate_list self u = u.
Proof.
  induction u as [|x u IH] using rev_ind; intros Hu; [done|].
  rewrite deduplicate_list_snoc, IH.
  - by rewrite (Hu u x []).
  - intros l1 y l2 ->. apply (Hu l1 y (l2 ++ [x])).
    by rewrite <- app_assoc.
Qed.

Lemma existsb_elements (f : text -> bool) (l : list text) :
  existsb f (elements (list_to_set l : gset text)) = existsb f l.
Proof.
  apply eq_true_iff_eq. rewrite !existsb_exists.
  split; intros (x & Hx & Hf); exists x; (split; [|done]).
  - apply list_elem_of_In. apply list_elem_of_In in Hx.
    apply elem_of_elements in Hx. by apply elem_of_list_to_set in Hx.
  - apply list_elem_of_In. apply list_elem_of_In in Hx.
    apply elem_of_elements. by apply elem_of_list_to_set.
Qed.

Lemma offer_all_snoc (inst : ContentDeduplicator.t) (pre : list text)
    (x : text) :
  offer_all inst (pre ++ [x]) = offer (offer_all inst pre) x.
Proof. unfold offer_all. by rewrite foldl_app. Qed.

Lemma offer_all_fresh (texts : list text) :
  Qle (similarity_threshold self) 1 ->
  offer_all (reset self) texts =
  (deduplicate_list self texts,
   Make (similarity_threshold self)
     (list_to_set (deduplicate_list self texts))).
Proof.
  intros Hthr. induction texts as [|x texts IH] using rev_ind; [done|].
  rewrite offer_all_snoc, IH, deduplicate_list_snoc.
  rewrite (kept_after_similarity self _ _ Hthr).
  unfold offer, is_duplicate. cbn [snd fst seen_content similarity_threshold].
  destruct (too_short x); simpl; [by rewrite app_nil_r|].
  unfold similar at 1. cbn [similarity_threshold].
  fold (similar self x). rewrite existsb_elements.
  destruct (existsb _ _); simpl; [by rewrite app_nil_r|].
  do 2 f_equal. rewrite list_to_set_app_L. simpl.
  rewrite (right_id_L ∅ (∪)). apply (comm_L (∪)).
Qed.

End DeduplicateAgain.

(** X1. [deduplicate_list] is idempotent: a list that went through it
    is returned unchanged by a second pass, whatever the threshold. *)
Theorem deduplicate_list_idempotent (self : ContentDeduplicator.t)
    (texts : list text) :
  ContentDeduplicator.deduplicate_list self
    (ContentDeduplicator.deduplicate_list self texts)
  = ContentDeduplicator.deduplicate_list self texts.
Proof. apply deduplicate_list_fixed, deduplicate_list_kept. Qed.

(** X2. With a threshold of at most 1, a fresh (or reset) instance
    fed the texts one by one through [is_duplicate] lets through exactly
    the texts [deduplicate_list] keeps, and its [seen_content] is then
    the set of these texts. *)
Theorem is_duplicate_stream (self : ContentDeduplicator.t)
    (texts : list text) :
  Qle (ContentDeduplicator.similarity_threshold self) 1 ->
  fst (offer_all (ContentDeduplicator.reset self) texts)
  = ContentDeduplicator.deduplicate_list self texts /\
  ContentDeduplicator.seen_content
    (snd (offer_all (ContentDeduplicator.reset self) texts))
  = list_to_set (ContentDeduplicator.deduplicate_list self texts).
Proof. intros Hthr. by rewrite offer_all_fresh. Qed.

Lemma is_duplicate_stream_witness :
  let self :=
    ContentDeduplicator.__init__ ContentDeduplicator.default_threshold in
  let texts := [L "The cat sat on the mat."; L "too short";
                L "The cat sat on the mat!"] in
  Qle (ContentDeduplicator.similarity_threshold self) 1 /\
  fst (offer_all (ContentDeduplicator.reset self) texts)
  = [L "The cat sat on the mat."].
Proof.
  intros self texts.
  assert (Hthr : Qle (ContentDeduplicator.similarity_threshold self) 1)
    by (vm_compute; discriminate).
  split; [exact Hthr|].
  rewrite (proj1 (is_duplicate_stream self texts Hthr)).
  vm_compute. reflexivity.
Defined.

(** ** [ContentDeduplicator.remove_substrings] *)

Section RemoveSubstrings.
Import ContentDeduplicator.

Lemma remove_substrings_eq (texts : list text) :
  remove_substrings texts =
  foldl substring_step [] (sorted_desc (fun s => inject_Z (Z.of_nat (length s))) texts).
Proof. by destruct texts. Qed.

Lemma substring_steps_sublist (l : list text) : foldl substring_step [] l `sublist_of` l.
Proof.
  induction l as [|x l IH] using rev_ind; [done|].
  rewrite foldl_app. simpl. unfold substring_step at 1.
  destruct (is_substring _ x).
  - by apply sublist_inserts_r.
  - by apply sublist_app.
Qed.

Lemma is_substring_app (u v : list text) (s : text) :
  is_substring (u ++ v) s = is_substring u s || is_substring v s.
Proof. apply existsb_app. Qed.

Lemma substring_steps_covers (l : list text) :
  Forall (fun x => is_substring (foldl substring_step [] l) x = true) l.
Proof.
  induction l as [|x l IH] using rev_ind; [constructor|].
  rewrite foldl_app. simpl. unfold substring_step at 1.
  destruct (is_substring (foldl substring_step [] l) x) eqn:Hx.
  - apply Forall_app. split; [done|]. by repeat constructor.
  - apply Forall_app. split.
    + eapply Forall_impl; [exact IH|]. intros y Hy. cbv beta in Hy.
      by rewrite is_substring_app, Hy.
    + repeat constructor. rewrite is_substring_app. simpl.
      fold (occurs_in x x). by rewrite occurs_in_refl, !orb_true_r.
Qed.


End RemoveSubstrings.

(** X3. [remove_substrings] keeps texts of the input only, and every
    input text occurs, case-insensitively, in one of the texts kept:
    nothing is lost but fragments of what remains. *)
Theorem remove_substrings_covers (texts : list text) :
  Forall (fun u => u ∈ texts) (ContentDeduplicator.remove_substrings texts) /\
  Forall (fun x =>
            Exists (fun u => occurs_in x u = true)
              (ContentDeduplicator.remove_substrings texts))
    texts.
Proof.
  rewrite remove_substrings_eq.
  set (key := fun s : text => inject_Z (Z.of_nat (length s))).
  split.
  - apply Forall_forall. intros u Hu.
    apply (sublist_subseteq _ _ (substring_steps_sublist _)) in Hu.
    by rewrite sorted_desc_Permutation in Hu.
  - apply Forall_forall. intros x Hx.
    rewrite <- (sorted_desc_Permutation key) in Hx.
    pose proof (proj1 (Forall_forall _ _)
                  (substring_steps_covers (sorted_desc key texts)) x Hx) as Hc.
    cbv beta in Hc. apply existsb_exists in Hc as (u & Hu & Hc).
    apply Exists_exists. exists u. split; [|done].
    by apply list_elem_of_In.
Qed.



(** ** [ContentDeduplicator.deduplicate_by_page] *)

Section DeduplicatePages.
Import ContentDeduplicator.
Variable self : ContentDeduplicator.t.

Lemma dedup_entry_lookup (key k : text) (page_data : gmap text (list text)) :
  dedup_entry self key page_data !! k =
  if decide (key = k) then deduplicate_list self <$> page_data !! k
  else page_data !! k.
Proof.
  unfold dedup_entry.
  destruct (page_data !! key) as [[|x l]|] eqn:Hkey.
  - destruct (decide (key = k)) as [<-|]; [by rewrite Hkey|done].
  - rewrite lookup_insert.
    destruct (decide (key = k)) as [<-|]; [by rewrite Hkey|done].
  - destruct (decide (key = k)) as [<-|]; [by rewrite Hkey|done].
Qed.

Lemma dedup_page_lookup (k : text) (page_data : gmap text (list text)) :
  dedup_page self page_data !! k =
  if bool_decide (k ∈ [L "concepts"; L "important_points"; L "procedures"])
  then deduplicate_list self <$> page_data !! k
  else page_data !! k.
Proof.
  unfold dedup_page. rewrite !dedup_entry_lookup.
  destruct (decide (L "procedures" = k)) as [<-|Hp]; [done|].
  destruct (decide (L "important_points" = k)) as [<-|Hi]; [done|].
  destruct (decide (L "concepts" = k)) as [<-|Hc]; [done|].
  rewrite bool_decide_eq_false_2; [done|].
  rewrite !elem_of_cons, elem_of_nil.
  intros [?|[?|[?|[]]]]; congruence.
Qed.

Lemma dedup_page_idempotent (page_data : gmap text (list text)) :
  dedup_page self (dedup_page self page_data) = dedup_page self page_data.
Proof.
  apply map_eq. intros k. rewrite !dedup_page_lookup.
  destruct (bool_decide _); [|done].
  destruct (page_data !! k) as [l|]; [|done]. simpl.
  f_equal. apply deduplicate_list_fixed, deduplicate_list_kept.
Qed.

End DeduplicatePages.

(** X5. [deduplicate_by_page] returns as many pages as it is given;
    on each page the entries [concepts], [important_points] and
    [procedures] that exist hold the deduplicated list (the test for an
    empty list changes nothing), every other entry is as it was and no
    key is added; a second pass changes nothing. *)
Theorem deduplicate_by_page_entries (self : ContentDeduplicator.t)
    (pages_data : list (gmap text (list text))) :
  Forall2
    (fun old new => forall k : text,
       new !! k =
       if bool_decide
            (k ∈ [L "concepts"; L "important_points"; L "procedures"])
       then ContentDeduplicator.deduplicate_list self <$> old !! k
       else old !! k)
    pages_data (ContentDeduplicator.deduplicate_by_page self pages_data) /\
  ContentDeduplicator.deduplicate_by_page self
    (ContentDeduplicator.deduplicate_by_page self pages_data)
  = ContentDeduplicator.deduplicate_by_page self pages_data.
Proof.
  unfold ContentDeduplicator.deduplicate_by_page. split.
  - apply Forall2_fmap_r, Forall_Forall2_diag, Forall_forall.
    intros page _ k. apply dedup_page_lookup.
  - rewrite <- list_fmap_compose. apply list_fmap_ext.
    intros i page _. apply dedup_page_idempotent.
Qed.

(** ** The ranking and the selection of [SentenceRanker] *)

Lemma insert_desc_stable {A} (key : A -> Q) (before : relation A) (x : A)
    (l : list A) :
  let R := fun a b =>
    Qlt (key b) (key a) \/ (Qeq (key a) (key b) /\ before a b) in
  Forall (before x) l -> StronglySorted R l ->
  StronglySorted R (insert_desc key x l).
Proof.
  intros R. induction l as [|y l IH]; intros Hx Hs; simpl.
  - repeat constructor.
  - apply Forall_cons in Hx as [Hxy Hx].
    pose proof Hs as Hs0.
    apply StronglySorted_inv in Hs as [Hs Hall].
    destruct (Qle_bool (key y) (key x)) eqn:Hle; simpl.
    + apply Qle_bool_iff in Hle.
      assert (Hy : R x y).
      { destruct (Qle_lt_or_eq _ _ Hle) as [Hlt|Heq]; [by left|].
        right. split; [by symmetry|done]. }
      constructor; [done|].
      constructor; [done|].
      apply Forall_forall. intros z Hz.
      pose proof (proj1 (Forall_forall _ _) Hall z Hz) as Hyz.
      pose proof (proj1 (Forall_forall _ _) Hx z Hz) as Hxz.
      cbv beta in Hyz, Hxz.
      assert (Hzy : Qle (key z) (key y)).
      { destruct Hyz as [Hlt|[Heq _]]; [by apply Qlt_le_weak|].
        rewrite Heq. apply Qle_refl. }
      assert (Hzx : Qle (key z) (key x)) by (by apply (Qle_trans _ (key y))).
      destruct (Qle_lt_or_eq _ _ Hzx) as [Hlt|Heq]; [by left|].
      right. split; [by symmetry|done].
    + assert (Hlt : Qlt (key x) (key y)).
      { destruct (Qlt_le_dec (key x) (key y)) as [Hlt|Hge]; [done|].
        apply Qle_bool_iff in Hge. congruence. }
      constructor; [by apply IH|].
      apply Forall_forall. intros z Hz.
      rewrite insert_desc_Permutation in Hz.
      apply elem_of_cons in Hz as [->|Hz]; [by left|].
      by apply (proj1 (Forall_forall _ _) Hall).
Qed.

Lemma sorted_desc_stable {A} (key : A -> Q) (before : relation A)
    (l : list A) :
  StronglySorted before l ->
  StronglySorted
    (fun a b => Qlt (key b) (key a) \/ (Qeq (key a) (key b) /\ before a b))
    (sorted_desc key l).
Proof.
  induction 1 as [|x l Hs IH Hx]; simpl; [constructor|].
  apply insert_desc_stable; [|done].
  by rewrite sorted_desc_Permutation.
Qed.

Lemma seq_increasing (start len : nat) : StronglySorted lt (seq start len).
Proof.
  revert start. induction len as [|len IH]; intros start; simpl.
  - constructor.
  - constructor; [apply IH|].
    apply Forall_forall. intros j Hj%elem_of_seq. lia.
Qed.

Lemma StronglySorted_fmap_inv {A B} (f : A -> B) (R : relation B)
    (l : list A) :
  StronglySorted R (f <$> l) -> StronglySorted (fun x y => R (f x) (f y)) l.
Proof.
  induction l as [|x l IH]; simpl; intros Hs; [constructor|].
  apply StronglySorted_inv in Hs as [Hs Hall].
  constructor; [by apply IH|].
  apply Forall_forall. intros y Hy.
  apply (proj1 (Forall_forall _ _) Hall).
  apply list_elem_of_fmap. by exists y.
Qed.

Section Ranking.
Variable scores : text -> list text -> nat -> Q.
Variables (sentences : list text) (method : text).

Let ranked := SentenceRanker.rank_sentences scores sentences method.

Lemma ranked_items :
  Forall (fun x =>
            sentences !! SentenceRanker.index_of x = Some (snd x) /\
            SentenceRanker.score_of x
            = scores method sentences (SentenceRanker.index_of x))
    ranked.
Proof.
  unfold ranked, SentenceRanker.rank_sentences, SentenceRanker.sort_desc.
  destruct sentences as [|s0 sentences'] eqn:Hs; [constructor|].
  rewrite <- Hs. apply Forall_forall. intros x Hx.
  rewrite sorted_desc_Permutation in Hx.
  apply elem_of_lookup_imap in Hx as (i & s & -> & Hi). done.
Qed.

Lemma ranked_outranks : StronglySorted outranks ranked.
Proof.
  unfold ranked, SentenceRanker.rank_sentences, SentenceRanker.sort_desc.
  destruct sentences as [|s0 sentences'] eqn:Hs; [constructor|].
  rewrite <- Hs.
  apply (sorted_desc_stable SentenceRanker.score_of
           (fun x y => SentenceRanker.index_of x < SentenceRanker.index_of y)).
  apply StronglySorted_fmap_inv.
  rewrite fmap_imap.
  rewrite (imap_ext _ (fun i _ => i)); [|done].
  rewrite imap_seq_0, list_fmap_id. apply seq_increasing.
Qed.

End Ranking.

(** X6. [rank_sentences] returns every sentence exactly once, each with
    its index and its score, ordered by non-increasing score; sentences
    of equal score stay in document order. *)
Theorem rank_sentences_ordered (scores : text -> list text -> nat -> Q)
    (sentences : list text) (method : text) :
  let ranked := SentenceRanker.rank_sentences scores sentences method in
  map SentenceRanker.index_of ranked ≡ₚ seq 0 (length sentences) /\
  Forall (fun x =>
            sentences !! SentenceRanker.index_of x = Some (snd x) /\
            SentenceRanker.score_of x
            = scores method sentences (SentenceRanker.index_of x))
    ranked /\
  StronglySorted outranks ranked.
Proof.
  split_and!.
  - apply ranked_indices.
  - apply ranked_items.
  - apply ranked_outranks.
Qed.

Lemma slice_to_take {A} (n : Z) (l : list A) :
  exists m, slice_to n l = take m l.
Proof. unfold slice_to. case_match; eauto. Qed.

Lemma get_top_sentences_selected (scores : text -> list text -> nat -> Q)
    (sentences : list text) (k : Z) (top_percent : Float.double)
    (method : text) :
  SentenceRanker.get_top_sentences scores sentences (Some k) top_percent
    method
  = map (fun i => nth i sentences [])
      (selected_indices scores sentences method k).
Proof.
  unfold SentenceRanker.get_top_sentences, selected_indices.
  destruct sentences as [|s0 sentences']; [|reflexivity].
  simpl. unfold slice_to. case_match; by rewrite take_nil.
Qed.

Lemma selected_indices_increasing (scores : text -> list text -> nat -> Q)
    (sentences : list text) (method : text) (k : Z) :
  StronglySorted lt (selected_indices scores sentences method k).
Proof. apply (top_indices_increasing scores sentences method k). Qed.

Lemma outranks_score (x y : SentenceRanker.ranked_item) :
  outranks x y ->
  Qle (SentenceRanker.score_of y) (SentenceRanker.score_of x).
Proof.
  intros [Hlt|[Heq _]]; [by apply Qlt_le_weak|].
  rewrite Heq. apply Qle_refl.
Qed.

(** X7. The sentences [get_top_sentences] returns are those at the
    positions [top_indices], in document order, and no sentence left
    out has a higher score than a sentence selected, for every [top_n],
    negative ones included. *)
Theorem get_top_sentences_best (scores : text -> list text -> nat -> Q)
    (sentences : list text) (k : Z) (top_percent : Float.double)
    (method : text) :
  let top_indices := selected_indices scores sentences method k in
  SentenceRanker.get_top_sentences scores sentences (Some k) top_percent
    method
  = map (fun i => nth i sentences []) top_indices /\
  StronglySorted lt top_indices /\
  forall i j,
    i ∈ top_indices -> j < length sentences -> ~ j ∈ top_indices ->
    Qle (scores method sentences j) (scores method sentences i).
Proof.
  intros top_indices. split_and!.
  - apply get_top_sentences_selected.
  - apply selected_indices_increasing.
  - intros i j Hi Hj Hnj. unfold top_indices, selected_indices in Hi, Hnj.
    rewrite merge_sort_Permutation in Hi, Hnj.
    set (ranked := SentenceRanker.rank_sentences scores sentences method)
      in *.
    destruct (slice_to_take k ranked) as [m Hm]. rewrite Hm in Hi, Hnj.
    pose proof (ranked_outranks scores sentences method) as Hs.
    pose proof (ranked_items scores sentences method) as Hitems.
    pose proof (ranked_indices scores sentences method) as Hperm.
    fold ranked in Hs, Hitems, Hperm.
    rewrite <- (take_drop m ranked) in Hs, Hperm.
    rewrite fmap_app in Hperm.
    apply list_elem_of_fmap in Hi as (x & -> & Hx).
    assert (Hy : j ∈ map SentenceRanker.index_of (drop m ranked)).
    { assert (Hin : j ∈ seq 0 (length sentences))
        by (apply elem_of_seq; lia).
      rewrite <- Hperm in Hin. apply elem_of_app in Hin as [Hin|Hin]; done. }
    apply list_elem_of_fmap in Hy as (y & -> & Hy).
    pose proof (StronglySorted_app_1_elem_of _ _ _ _ _ Hs Hx Hy) as Hxy.
    apply outranks_score in Hxy.
    assert (Hxr : x ∈ ranked).
    { rewrite <- (take_drop m ranked). apply elem_of_app. by left. }
    assert (Hyr : y ∈ ranked).
    { rewrite <- (take_drop m ranked). apply elem_of_app. by right. }
    destruct (proj1 (Forall_forall _ _) Hitems x Hxr) as [_ <-].
    by destruct (proj1 (Forall_forall _ _) Hitems y Hyr) as [_ <-].
Qed.

Lemma increasing_subset_sublist (l1 l2 : list nat) :
  StronglySorted lt l1 -> StronglySorted lt l2 -> l1 ⊆ l2 ->
  l1 `sublist_of` l2.
Proof.
  revert l1. induction l2 as [|y l2 IH]; intros l1 Hs1 Hs2 Hsub.
  - destruct l1 as [|x l1]; [done|].
    specialize (Hsub x (list_elem_of_here _ _)). by apply elem_of_nil in Hsub.
  - destruct l1 as [|x l1]; [apply sublist_nil_l|].
    apply StronglySorted_inv in Hs2 as [Hs2 Hy].
    pose proof Hs1 as Hs1'.
    apply StronglySorted_inv in Hs1' as [Hs1' Hx].
    assert (Hgt : forall z, z ∈ l2 -> y < z)
      by (intros z Hz; exact (proj1 (Forall_forall _ _) Hy z Hz)).
    assert (Hxz : forall z, z ∈ l1 -> x < z)
      by (intros z Hz; exact (proj1 (Forall_forall _ _) Hx z Hz)).
    destruct (decide (x = y)) as [->|Hne].
    + apply sublist_skip, IH; [done|done|].
      intros z Hz. pose proof (Hxz z Hz).
      assert (Hin : z ∈ y :: l2) by (apply Hsub; by right).
      apply elem_of_cons in Hin as [->|Hin]; [lia|done].
    + apply sublist_cons, IH; [done|done|].
      assert (Hxin : x ∈ l2).
      { assert (Hin : x ∈ y :: l2) by (apply Hsub; left).
        by apply elem_of_cons in Hin as [->|Hin]. }
      pose proof (Hgt x Hxin).
      intros z Hz. assert (Hin : z ∈ y :: l2) by by apply Hsub.
      apply elem_of_cons in Hin as [->|Hin]; [|done].
      apply elem_of_cons in Hz as [->|Hz]; [lia|].
      pose proof (Hxz y Hz). lia.
Qed.

Lemma get_top_sentences_sublist_le (scores : text -> list text -> nat -> Q)
    (sentences : list text) (k1 k2 : Z) (top_percent : Float.double)
    (method : text) :
  (0 <= k1 <= k2)%Z ->
  SentenceRanker.get_top_sentences scores sentences (Some k1) top_percent
    method
  `sublist_of`
  SentenceRanker.get_top_sentences scores sentences (Some k2) top_percent
    method.
Proof.
  intros Hk. rewrite !get_top_sentences_selected.
  apply (fmap_sublist (fun i => nth i sentences [])).
  apply increasing_subset_sublist;
    [apply selected_indices_increasing..|].
  intros i. unfold selected_indices.
  rewrite !merge_sort_Permutation.
  apply sublist_subseteq, (fmap_sublist SentenceRanker.index_of).
  unfold slice_to.
  destruct (Z.leb_spec 0 k1); [|lia]. destruct (Z.leb_spec 0 k2); [|lia].
  replace (Z.to_nat k1) with (Nat.min (Z.to_nat k1) (Z.to_nat k2)) by lia.
  rewrite <- take_take. apply sublist_take.
Qed.

(** X8. Asking [get_top_sentences] for more sentences only adds
    sentences: the selection for a count [k1] is a subsequence of the
    selection for any larger count [k2]. *)
Theorem get_top_sentences_monotone (scores : text -> list text -> nat -> Q)
    (sentences : list text) (k1 k2 : Z) (top_percent : Float.double)
    (method : text) :
  (0 <= k1 <= k2)%Z ->
  SentenceRanker.get_top_sentences scores sentences (Some k1) top_percent
    method
  `sublist_of`
  SentenceRanker.get_top_sentences scores sentences (Some k2) top_percent
    method.
Proof. apply get_top_sentences_sublist_le. Qed.

Lemma get_top_sentences_monotone_witness :
  let scores := fun (_ : text) (_ : list text) (i : nat) =>
                  inject_Z (Z.of_nat (i mod 2)) in
  let sentences := [L "first"; L "second"; L "third"; L "fourth"] in
  (0 <= 1 <= 3)%Z /\
  SentenceRanker.get_top_sentences scores sentences (Some 1%Z) Float.f0_3
    (L "combined")
  `sublist_of`
  SentenceRanker.get_top_sentences scores sentences (Some 3%Z) Float.f0_3
    (L "combined").
Proof.
  intros scores sentences. split; [lia|].
  apply (get_top_sentences_monotone scores sentences 1 3). lia.
Defined.

Lemma map_nth_seq {A} (d : A) (l : list A) :
  map (fun i => nth i l d) (seq 0 (length l)) = l.
Proof.
  apply list_eq. intros i. rewrite list_lookup_fmap.
  destruct (decide (i < length l)) as [Hi|Hi].
  - rewrite lookup_seq_lt by done. simpl.
    destruct (lookup_lt_is_Some_2 l i Hi) as [x Hx].
    by rewrite Hx, (nth_lookup_Some _ _ _ _ Hx).
  - rewrite lookup_seq_ge by lia. simpl. symmetry.
    apply lookup_ge_None. lia.
Qed.

Lemma get_top_sentences_all (scores : text -> list text -> nat -> Q)
    (sentences : list text) (k : Z) (top_percent : Float.double)
    (method : text) :
  (Z.of_nat (length sentences) <= k)%Z ->
  SentenceRanker.get_top_sentences scores sentences (Some k) top_percent
    method = sentences.
Proof.
  intros Hk. rewrite get_top_sentences_selected.
  rewrite <- (map_nth_seq [] sentences) at 2. f_equal.
  pose proof (ranked_indices scores sentences method) as Hperm.
  assert (Hlen : length (SentenceRanker.rank_sentences scores sentences method)
                 = length sentences).
  { rewrite <- (length_map SentenceRanker.index_of), Hperm.
    apply length_seq. }
  apply (StronglySorted_unique_strong lt).
  - intros; lia.
  - apply selected_indices_increasing.
  - apply seq_increasing.
  - unfold selected_indices. rewrite merge_sort_Permutation.
    unfold slice_to. destruct (Z.leb_spec 0 k); [|lia].
    rewrite take_ge by lia. done.
Qed.

(** X9. When [top_n] is at least the number of sentences,
    [get_top_sentences] returns the sentence list unchanged. *)
Theorem get_top_sentences_everything
    (scores : text -> list text -> nat -> Q) (sentences : list text)
    (k : Z) (top_percent : Float.double) (method : text) :
  (Z.of_nat (length sentences) <= k)%Z ->
  SentenceRanker.get_top_sentences scores sentences (Some k) top_percent
    method = sentences.
Proof. apply get_top_sentences_all. Qed.

Lemma get_top_sentences_everything_witness :
  let scores := fun (_ : text) (_ : list text) (i : nat) =>
                  inject_Z (Z.of_nat (i mod 2)) in
  let sentences := [L "first"; L "second"; L "third"] in
  (Z.of_nat (length sentences) <= 5)%Z /\
  SentenceRanker.get_top_sentences scores sentences (Some 5%Z) Float.f0_3
    (L "tfidf") = sentences.
Proof.
  intros scores sentences.
  assert (Hk : (Z.of_nat (length sentences) <= 5)%Z) by (simpl; lia).
  split; [exact Hk|].
  exact (get_top_sentences_everything scores sentences 5 Float.f0_3
           (L "tfidf") Hk).
Defined.

(** ** More on [Summarizer] *)

(** X10. A document of at most [min_sentences] sentences is returned
    whole by [generate_summary] (without [max_sentences]): the summary
    sentences are the input, the text is the input joined by blanks and
    the ratio is 1, whatever the scores and the summary ratio. *)
Theorem generate_summary_short_document
    (scores : text -> list text -> nat -> Q) (sentences : list text)
    (summary_ratio : Float.double) (min_sentences : Z) :
  sentences <> [] ->
  (Z.of_nat (length sentences) <= min_sentences)%Z ->
  let result :=
    Summarizer.generate_summary scores sentences summary_ratio
      min_sentences None in
  Summarizer.summary_sentences result = sentences /\
  Summarizer.summary_text result = join (L " ") sentences /\
  Summarizer.summary_count result = Summarizer.original_count result /\
  Qeq (Summarizer.ratio result) 1.
Proof.
  intros Hne Hlen result.
  assert (Hall : SentenceRanker.get_top_sentences scores sentences
                   (Some (Summarizer.target_count (length sentences)
                            summary_ratio min_sentences None))
                   Float.f0_3 Summarizer.combined = sentences).
  { apply get_top_sentences_all. unfold Summarizer.target_count. lia. }
  unfold result, Summarizer.generate_summary.
  destruct sentences as [|s0 sentences'] eqn:Hs; [done|].
  rewrite <- Hs in *. cbn [Summarizer.summary_sentences
    Summarizer.summary_text Summarizer.summary_count
    Summarizer.original_count Summarizer.ratio].
  rewrite Hall. split_and!; try done.
  unfold Qeq. cbn [Qnum Qden]. rewrite Hs. simpl length.
  rewrite <- (positive_nat_Z (Pos.of_nat (S (length sentences')))).
  rewrite Nat2Pos.id by done. lia.
Qed.

Lemma generate_summary_short_document_witness :
  let scores := fun (_ : text) (_ : list text) (i : nat) =>
                  inject_Z (Z.of_nat i) in
  let sentences := [L "One."; L "Two."; L "Three."] in
  sentences <> [] /\
  (Z.of_nat (length sentences) <= Summarizer.default_min_sentences)%Z /\
  Summarizer.summary_sentences
    (Summarizer.generate_summary scores sentences
       Summarizer.default_summary_ratio Summarizer.default_min_sentences
       None) = sentences.
Proof.
  intros scores sentences.
  assert (Hne : sentences <> []) by discriminate.
  assert (Hlen : (Z.of_nat (length sentences)
                  <= Summarizer.default_min_sentences)%Z)
    by (vm_compute; discriminate).
  split_and!; [exact Hne|exact Hlen|].
  exact (proj1 (generate_summary_short_document scores sentences
                  Summarizer.default_summary_ratio
                  Summarizer.default_min_sentences Hne Hlen)).
Defined.

(** X11. A positive [max_sentences] caps the summary: it has at most
    that many sentences, all of them sentences of the uncapped summary;
    [max_sentences = 0] is read as no cap at all. *)
Theorem generate_summary_capped
    (scores : text -> list text -> nat -> Q) (sentences : list text)
    (summary_ratio : Float.double) (min_sentences m : Z) :
  (0 <= min_sentences)%Z -> (0 < m)%Z ->
  let capped :=
    Summarizer.generate_summary scores sentences summary_ratio
      min_sentences (Some m) in
  let free :=
    Summarizer.generate_summary scores sentences summary_ratio
      min_sentences None in
  (Z.of_nat (length (Summarizer.summary_sentences capped)) <= m)%Z /\
  Summarizer.summary_sentences capped
  `sublist_of` Summarizer.summary_sentences free /\
  Summarizer.generate_summary scores sentences summary_ratio
    min_sentences (Some 0%Z) = free.
Proof.
  intros Hmin Hm capped free.
  destruct (decide (sentences = [])) as [->|Hne].
  { simpl. split_and!; [lia|done|done]. }
  unfold capped, free. rewrite !generate_summary_sentences by done.
  unfold Summarizer.target_count.
  destruct (Z.eqb_spec m 0) as [|_]; [lia|].
  split_and!.
  - rewrite get_top_sentences_count by lia. lia.
  - apply get_top_sentences_sublist_le. lia.
  - by destruct sentences.
Qed.

Lemma generate_summary_capped_witness :
  let scores := fun (_ : text) (_ : list text) (i : nat) =>
                  inject_Z (Z.of_nat (i mod 3)) in
  let sentences := [L "One."; L "Two."; L "Three."; L "Four."] in
  (0 <= 20)%Z /\ (0 < 2)%Z /\
  (Z.of_nat
     (length
        (Summarizer.summary_sentences
           (Summarizer.generate_summary scores sentences
              Summarizer.default_summary_ratio 20 (Some 2%Z)))) <= 2)%Z.
Proof.
  intros scores sentences.
  assert (H0 : (0 <= 20)%Z) by lia. assert (H1 : (0 < 2)%Z) by lia.
  split_and!; [exact H0|exact H1|].
  exact (proj1 (generate_summary_capped scores sentences
                  Summarizer.default_summary_ratio 20 2 H0 H1)).
Defined.

(** ** Rounded products *)

Section RoundedProducts.
Local Open Scope Z_scope.

(** Rounding to 53 bits moves a product by at most one part in
    [2 ^ 53]. *)
Lemma round_pos_bounds (m e : Z) :
  0 <= m ->
  let d := Float.round_pos m e in
  0 <= Float.mant d /\ e <= Float.expo d /\
  2 ^ 53 * (Float.mant d * 2 ^ (Float.expo d - e)) <= (2 ^ 53 + 1) * m /\
  (2 ^ 53 - 1) * m <= 2 ^ 53 * (Float.mant d * 2 ^ (Float.expo d - e)).
Proof.
  intros Hm. unfold Float.round_pos.
  replace (2 ^ 53) with 9007199254740992 by reflexivity.
  destruct (Z.leb_spec (Z.log2 m + 1) 53) as [Hbits|Hbits]; simpl.
  - rewrite Z.sub_diag. simpl. lia.
  - set (sh := Z.log2 m + 1 - 53) in *.
    assert (Hsh : 0 < sh) by lia.
    assert (Hpos : 0 < m).
    { destruct (Z.eq_dec m 0) as [->|]; [simpl in Hbits; lia|lia]. }
    pose proof (Z.log2_spec m Hpos) as [Hlog _].
    replace (Z.log2 m) with (sh + 52) in Hlog by lia.
    rewrite Z.pow_add_r in Hlog by lia.
    replace (2 ^ 52) with 4503599627370496 in Hlog by reflexivity.
    replace (e + sh - e) with sh by lia.
    rewrite Z.shiftr_div_pow2 by lia.
    assert (Hhalf : 2 ^ sh = 2 * 2 ^ (sh - 1)).
    { replace sh with (1 + (sh - 1)) at 1 by lia.
      rewrite Z.pow_add_r by lia. done. }
    assert (Hp : 0 < 2 ^ (sh - 1)) by (apply Z.pow_pos_nonneg; lia).
    set (P := 2 ^ sh) in *. set (h := 2 ^ (sh - 1)) in *.
    pose proof (Z.div_mod m P ltac:(lia)) as Hdiv.
    pose proof (Z.mod_pos_bound m P ltac:(lia)) as Hr.
    assert (Hq : 0 <= m / P) by (apply Z.div_pos; lia).
    set (q := m / P) in *. set (r := m mod P) in *.
    destruct ((h <? r) || ((r =? h) && Z.odd q)) eqn:Hup; simpl.
    + assert (h <= r).
      { apply orb_prop in Hup as [Hup|Hup].
        - apply Z.ltb_lt in Hup. lia.
        - apply andb_prop in Hup as [Hup _]. apply Z.eqb_eq in Hup. lia. }
      split_and!; lia.
    + apply orb_false_elim in Hup as [Hup _]. apply Z.ltb_ge in Hup.
      split_and!; lia.
Qed.

Lemma to_int_scaled (q ex K : Z) :
  0 <= q -> 0 <= K -> 0 <= ex + K ->
  Float.to_int (Float.Double q ex) = (q * 2 ^ (ex + K)) / 2 ^ K.
Proof.
  intros Hq HK Hex. unfold Float.to_int. simpl.
  destruct (Z.leb_spec 0 ex) as [Hpos|Hneg].
  - rewrite Z.pow_add_r, Z.mul_assoc by lia.
    rewrite Z.div_mul; [done|]. apply Z.pow_nonzero; lia.
  - rewrite Z.quot_div_nonneg; [|done|apply Z.pow_pos_nonneg; lia].
    replace K with (- ex + (ex + K)) at 2 by lia.
    rewrite (Z.pow_add_r 2 (- ex) (ex + K)) by lia.
    rewrite Z.div_mul_cancel_r; [done|apply Z.pow_nonzero; lia..].
Qed.

Lemma scaled_le_chain (C n a1 a2 mx my X Y : Z) :
  0 < C -> 0 <= n -> 0 <= X -> 0 <= Y ->
  C * a1 <= (C + 1) * (n * mx) ->
  (C - 1) * (n * my) <= C * a2 ->
  (C + 1) * (mx * X) <= (C - 1) * (my * Y) ->
  a1 * X <= a2 * Y.
Proof.
  intros HC Hn HX HY B1 B2 Hgap.
  apply (Z.mul_le_mono_pos_l _ _ C HC).
  apply (Z.le_trans _ (n * ((C + 1) * (mx * X)))).
  - replace (C * (a1 * X)) with (C * a1 * X) by ring.
    replace (n * ((C + 1) * (mx * X))) with ((C + 1) * (n * mx) * X) by ring.
    by apply Z.mul_le_mono_nonneg_r.
  - apply (Z.le_trans _ (n * ((C - 1) * (my * Y)))).
    + by apply Z.mul_le_mono_nonneg_l.
    + replace (C * (a2 * Y)) with (C * a2 * Y) by ring.
      replace (n * ((C - 1) * (my * Y))) with ((C - 1) * (n * my) * Y) by ring.
      by apply Z.mul_le_mono_nonneg_r.
Qed.

(** Two factors that differ by more than the rounding keep their order
    in [int(n * x)]. *)
Lemma to_int_mul_int_le (n : Z) (x y : Float.double) (K : Z) :
  0 <= n -> 0 <= Float.mant x -> 0 <= Float.mant y ->
  0 <= K -> 0 <= Float.expo x + K -> 0 <= Float.expo y + K ->
  (2 ^ 53 + 1) * (Float.mant x * 2 ^ (Float.expo x + K))
  <= (2 ^ 53 - 1) * (Float.mant y * 2 ^ (Float.expo y + K)) ->
  Float.to_int (Float.mul_int n x) <= Float.to_int (Float.mul_int n y).
Proof.
  intros Hn Hx Hy HK Hex Hey Hgap. unfold Float.mul_int, Float.round.
  pose proof (Z.mul_nonneg_nonneg _ _ Hn Hx) as Hnx.
  pose proof (Z.mul_nonneg_nonneg _ _ Hn Hy) as Hny.
  destruct (Z.leb_spec 0 (n * Float.mant x)) as [_|]; [|lia].
  destruct (Z.leb_spec 0 (n * Float.mant y)) as [_|]; [|lia].
  pose proof (round_pos_bounds _ (Float.expo x) Hnx) as Bx.
  pose proof (round_pos_bounds _ (Float.expo y) Hny) as By.
  destruct (Float.round_pos (n * Float.mant x) (Float.expo x)) as [q1 e1].
  destruct (Float.round_pos (n * Float.mant y) (Float.expo y)) as [q2 e2].
  simpl in Bx, By.
  destruct Bx as (Hq1 & He1 & Bx & _). destruct By as (Hq2 & He2 & _ & By).
  rewrite (to_int_scaled q1 e1 K), (to_int_scaled q2 e2 K) by lia.
  apply Z.div_le_mono; [apply Z.pow_pos_nonneg; lia|].
  assert (E1 : 2 ^ (e1 + K)
               = 2 ^ (e1 - Float.expo x) * 2 ^ (Float.expo x + K)).
  { rewrite <- Z.pow_add_r by lia. f_equal. lia. }
  assert (E2 : 2 ^ (e2 + K)
               = 2 ^ (e2 - Float.expo y) * 2 ^ (Float.expo y + K)).
  { rewrite <- Z.pow_add_r by lia. f_equal. lia. }
  rewrite E1, E2, !Z.mul_assoc.
  apply (scaled_le_chain (2 ^ 53) n _ _ (Float.mant x) (Float.mant y));
    [done|done|apply Z.pow_nonneg; lia|apply Z.pow_nonneg; lia
    |exact Bx|exact By|exact Hgap].
Qed.

End RoundedProducts.

Lemma layer_counts_ordered (total : nat) :
  (10 <= Summarizer.layer_count total 10 Float.f0_2
   <= Summarizer.layer_count total 30 Float.f0_5)%Z /\
  (Summarizer.layer_count total 30 Float.f0_5
   <= Summarizer.layer_count total 50 Float.f0_75)%Z.
Proof.
  unfold Summarizer.layer_count.
  assert (H1 : (Float.to_int (Float.mul_int (Z.of_nat total) Float.f0_2)
                <= Float.to_int (Float.mul_int (Z.of_nat total) Float.f0_5))%Z).
  { apply (to_int_mul_int_le _ _ _ 55); try (by vm_compute); lia. }
  assert (H2 : (Float.to_int (Float.mul_int (Z.of_nat total) Float.f0_5)
                <= Float.to_int (Float.mul_int (Z.of_nat total) Float.f0_75))%Z).
  { apply (to_int_mul_int_le _ _ _ 55); try (by vm_compute); lia. }
  lia.
Qed.

(** X12. The three levels of [generate_layered_summary] are nested:
    the brief summary is a subsequence of the medium one, the medium
    one of the detailed one and that one of the document; each count is
    the length of its level, and the brief level holds at least ten
    sentences or the whole document. *)
Theorem layered_summary_nested (scores : text -> list text -> nat -> Q)
    (sentences : list text) :
  let result := Summarizer.generate_layered_summary scores sentences in
  let brief := Summarizer.brief result in
  let medium := Summarizer.medium result in
  let detailed := Summarizer.detailed result in
  Summarizer.level_sentences brief
  `sublist_of` Summarizer.level_sentences medium /\
  Summarizer.level_sentences medium
  `sublist_of` Summarizer.level_sentences detailed /\
  Summarizer.level_sentences detailed `sublist_of` sentences /\
  Nat.min 10 (length sentences) <= Summarizer.level_count brief /\
  Summarizer.level_count brief <= Summarizer.level_count medium /\
  Summarizer.level_count medium <= Summarizer.level_count detailed.
Proof.
  intros result brief medium detailed.
  pose proof (layer_counts_ordered (length sentences)) as [[H10 H1] H2].
  unfold brief, medium, detailed, result,
    Summarizer.generate_layered_summary.
  cbn [Summarizer.brief Summarizer.medium Summarizer.detailed
       Summarizer.make_level Summarizer.level_sentences
       Summarizer.level_count].
  rewrite !get_top_sentences_count by lia.
  split_and!.
  - apply get_top_sentences_sublist_le. lia.
  - apply get_top_sentences_sublist_le. lia.
  - rewrite get_top_sentences_selected.
    rewrite (map_ext _ (fun j => nth (j - 0) sentences []))
      by (intros j; by rewrite Nat.sub_0_r).
    apply (nth_increasing_sublist [] sentences _ 0).
    + apply selected_indices_increasing.
    + apply Forall_forall. intros j Hj.
      pose proof (proj1 (proj2 (top_indices_increasing scores sentences
                    Summarizer.combined
                    (Summarizer.layer_count (length sentences) 50
                       Float.f0_75)))) as Hlt.
      pose proof (proj1 (Forall_forall _ _) Hlt j Hj). simpl in *. lia.
  - lia.
  - lia.
  - lia.
Qed.

(** ** Worked examples *)

Example normalize_text_example :
  ContentDeduplicator._normalize_text (L "  The  Cat, sat on the mat?.  ")
  = L "cat sat mat.".
Proof. vm_compute. reflexivity. Qed.

Example calculate_similarity_example :
  ContentDeduplicator.calculate_similarity (L "The cat sat on the mat.")
    (L "The cat sat on the mat!") = (22 # 23)%Q.
Proof. vm_compute. reflexivity. Qed.

Example deduplicate_list_example :
  ContentDeduplicator.deduplicate_list
    (ContentDeduplicator.__init__ ContentDeduplicator.default_threshold)
    [L "The cat sat on the mat."; L "too short";
     L "The cat sat on the mat!"; L "A dog ran in the park today."]
  = [L "The cat sat on the mat."; L "A dog ran in the park today."].
Proof. vm_compute. reflexivity. Qed.

Example matching_blocks_example :
  Difflib.matches (L "private Thread currentThread;")
    (L "private volatile Thread currentThread;") = 29.
Proof. vm_compute. reflexivity. Qed.

Example float_product_example :
  Float.to_int (Float.mul_int 90 Float.f0_7) = 62%Z /\
  Float.to_int (Float.mul_int 31 Float.f0_7) = 21%Z /\
  Float.to_int (Float.mul_int 10 Float.f0_7) = 7%Z.
Proof. vm_compute. by split_and!. Qed.

Example get_top_sentences_example :
  SentenceRanker.get_top_sentences
    (fun _ _ i => nth i [1 # 2; 9 # 10; 1 # 10; 7 # 10]%Q 0%Q)
    [L "s0"; L "s1"; L "s2"; L "s3"] (Some 2%Z) Float.f0_3 (L "combined")
  = [L "s1"; L "s3"].
Proof. vm_compute. reflexivity. Qed.

Example generate_key_points_example :
  Summarizer.generate_key_points (fun _ _ i => inject_Z (Z.of_nat i))
    [L "a"; L "b"; L "c"] Summarizer.default_top_n
  = [L "a"; L "b"; L "c"].
Proof. vm_compute. reflexivity. Qed.

Example extract_page_content_example :
  map (fun p => (IntelligentExtractor.point_text p,
                 IntelligentExtractor.point_type p))
    (IntelligentExtractor.points
       (IntelligentExtractor._extract_page_content
          (L "Photosynthesis is the process by which plants convert light into energy. Chlorophyll absorbs sunlight. Step 1: expose the plant to light.")
          1))
  = [(L "Photosynthesis is the process by which plants convert light into energy",
      IntelligentExtractor.definition);
     (L "Step 1: expose the plant to light",
      IntelligentExtractor.procedure)].
Proof. vm_compute. reflexivity. Qed.

Example clean_concatenated_text_example :
  AdvancedTextCleaner.clean_concatenated_text
    (L "page1and2x  end Next    iPhone7Plus")
  = L "page 1 and 2 x end Next i Ph on e 7 Plus".
Proof. vm_compute. reflexivity. Qed.

Example pattern_questions_example :
  map QAGenerator.question
    (QAGenerator.pattern_questions_of
       (L "Machine learning is a subset of artificial intelligence."))
  = [L "What is Machine learning?"].
Proof. vm_compute. reflexivity. Qed.
